(** * Moving diagonally up in life: validity walk and path counting

    A shallow embedding of [main.py] (Python 2): the [Point], [Grid] and
    [Subgrid] classes, the recursive validity walk [_did_miss_points], the
    three-direction path enumeration [_move], the reader [from_stream] and
    [main], followed by the properties of the program that the specification
    relies on and by further properties of the code.

    Conventions of the embedding:
    - a Python [str] is a list of characters; a list of rows is a list of
      those; Python integers are [Z], lengths and loop indices are [nat];
    - an exception is a value of [exn] carried by [result]; recursion that
      Python bounds only by its call stack takes a fuel argument, and running
      out of fuel is [None];
    - the [visited] set of a grid is threaded through the walk explicitly; the
      list object shared by all calls of [_move] lives in a [heap]. *)

From Stdlib Require Import ZArith List Ascii String Lia ArithRing.
From stdpp Require Import base decidable option list sets gmap sorting strings.

(** ** Python values *)

Abbreviation str := (list ascii).

Definition py_str (s : string) : str := list_ascii_of_string s.

(** The marker character, and the one-character string ["X"]. *)
Definition marker : ascii := "X"%char.
Definition X : str := [marker].

Inductive exn : Type :=
| AssertionError
| IndexError
| RuntimeError (msg : string).

Inductive result (A : Type) : Type :=
| Ok (a : A)
| Raise (e : exn).
Arguments Ok {A} a.
Arguments Raise {A} e.

Definition result_map {A B} (f : A → B) (r : result A) : result B :=
  match r with
  | Ok a => Ok (f a)
  | Raise e => Raise e
  end.

(** [clamp n i]: the position a slice bound [i] denotes in a sequence of
    length [n]; a negative bound counts from the end. *)
Definition clamp (n : nat) (i : Z) : nat :=
  if (i <? 0)%Z then Z.to_nat (Z.max 0 (Z.of_nat n + i))
  else Nat.min (Z.to_nat i) n.

(** [slice l lo hi] is [l[lo:hi]]; a missing bound is [None]. *)
Definition slice {A} (l : list A) (lo hi : option Z) : list A :=
  let a := from_option (clamp (length l)) 0 lo in
  let b := from_option (clamp (length l)) (length l) hi in
  take (b - a) (drop a l).

(** [min(l)] for a non-empty list of integers. *)
Definition py_min (l : list Z) : option Z :=
  match l with
  | [] => None
  | d :: ds => Some (fold_left Z.min ds d)
  end.

(** [l.index(v)]: the first position holding [v]. *)
Fixpoint index (l : list Z) (v : Z) : option nat :=
  match l with
  | [] => None
  | d :: ds => if (d =? v)%Z then Some 0 else S <$> index ds v
  end.

(** ** class Point *)

Module Point.

Record t : Type := mk { x : Z; y : Z }.

#[global] Instance eq_dec : EqDecision t.
Proof. solve_decision. Defined.

#[global] Instance countable : Countable t.
Proof.
  refine (inj_countable' (λ p, (x p, y p)) (λ q, mk q.1 q.2) _).
  intros []; reflexivity.
Defined.

(** The [coords] property. *)
Definition coords (p : t) : Z * Z := (x p, y p).

End Point.

(** ** class Grid *)

Module Grid.

(** The attributes set by the constructor. The [visited] set is the only one
    mutated afterwards; it is passed explicitly to the methods that use it.
    [_paths] and [_is_possible] only cache the results of [paths_count] and
    [is_possible], which are modelled as functions of the grid. *)
Record t : Type := mk {
  grid : list str;
  cols : list str;
  rows : list str;
  points : list Point.t;
  _start : Point.t;
  _end : Point.t
}.

(** [grid[y][x] == "X"]. *)
Definition is_marker (grid : list str) (y x : nat) : bool :=
  bool_decide (grid !! y ≫= (.!! x) = Some marker).

(** The inner loop of the constructor: the markers of row [y], left to
    right. *)
Definition scan_row (grid : list str) (width y : nat) : list Point.t :=
  omap (λ x, if is_marker grid y x
             then Some (Point.mk (Z.of_nat x) (Z.of_nat y)) else None)
       (seq 0 width).

(** The outer loop: rows from the last to the first. *)
Definition scan (grid : list str) (width height : nat) : list Point.t :=
  reverse (seq 0 height) ≫= scan_row grid width.

(** Column [y] of the grid: ["".join(map(lambda x: x[y], grid))]. The
    constructor builds columns only after its assertion that every row is
    [width] long, so the index is always in range and the filler character
    below is never read. *)
Definition column (grid : list str) (y : nat) : str :=
  (λ r, default "."%char (r !! y)) <$> grid.

Definition __init__ (grid : list str) : result t :=
  match grid with
  | [] =>
      (* both assertions hold of an empty list; [self.width] then reads
         [grid[0]] *)
      Raise IndexError
  | r0 :: _ =>
      let width := length r0 in
      let height := length grid in
      if negb (forallb (λ r, length r =? width) grid) then Raise AssertionError
      else if negb (length grid =? height) then Raise AssertionError
      else
        let cols := column grid <$> seq 0 width in
        let points := scan grid width height in
        match points with
        | [] => Raise (RuntimeError "Unable to find starting coord from grid.")
        | p0 :: _ =>
            Ok {| grid := grid; cols := cols; rows := grid; points := points;
                  _start := p0; _end := default p0 (last points) |}
        end
  end.

Definition start (g : t) : Point.t := _start g.
Definition end_ (g : t) : Point.t := _end g.

Definition width (g : t) : result nat :=
  match grid g with
  | [] => Raise IndexError
  | r0 :: _ => Ok (length r0)
  end.

Definition height (g : t) : nat := length (grid g).

Definition _nothing_before (g : t) (visited : gset Point.t) (x y : Z) : bool :=
  forallb (λ p, if decide (p ∉ visited)
                then negb ((Point.x p <? x)%Z || (Point.y p >? y)%Z)
                else true)
          (points g).

Definition _mutually_exclusive_row_col (g : t) (x y : Z) : bool :=
  let cols := slice (cols g) None (Some x) ++ slice (cols g) (Some (x + 1)%Z) None in
  let rows := slice (rows g) None (Some y) ++ slice (rows g) (Some (y + 1)%Z) None in
  negb (bool_decide (X ∈ cols) && bool_decide (X ∈ rows)).

(** The square of [dist]. [math.sqrt] is increasing and keeps distinct squares
    below 2^50 apart, so for coordinates below 2^24 the smallest distance and
    its first position are those of the smallest square. The general
    properties below use only that [_get_nearest] returns one of the
    candidates, whichever it is. *)
Definition dist2 (x1 y1 x2 y2 : Z) : Z :=
  ((x1 - x2) ^ 2 + (y1 - y2) ^ 2)%Z.

Definition valid_point (x y : Z) (p : Point.t) : bool :=
  (Point.x p >=? x)%Z && (Point.y p <=? y)%Z
  && negb ((Point.x p =? x)%Z && (Point.y p =? y)%Z).

Definition _get_nearest (g : t) (x y : Z) : option Point.t :=
  let valid_points := List.filter (valid_point x y) (points g) in
  if length valid_points <? 1 then None
  else
    let distances := (λ p, dist2 x y (Point.x p) (Point.y p)) <$> valid_points in
    m ← py_min distances;
    i ← index distances m;
    valid_points !! i.

Definition logic_error : string :=
  "There is an error in my logic. I have found that thereexists another valid point, yet I have visited all points.".

(** The walk returns the final [visited] set with its outcome. *)
Fixpoint _did_miss_points (fuel : nat) (g : t) (visited : gset Point.t)
    (x y : Z) : option (gset Point.t * result bool) :=
  match fuel with
  | O => None
  | S fuel =>
      let visited := visited ∪ {[Point.mk x y]} in
      if negb (_nothing_before g visited x y && _mutually_exclusive_row_col g x y)
      then Some (visited, Ok true)
      else
        let nearest := _get_nearest g x y in
        let diffs := size (list_to_set (points g) ∖ visited) in
        match nearest with
        | None =>
            if 0 <? diffs then Some (visited, Ok true)
            else Some (visited, Ok false)
        | Some nearest =>
            if 0 <? diffs
            then _did_miss_points fuel g visited (Point.x nearest) (Point.y nearest)
            else Some (visited, Raise (RuntimeError logic_error))
        end
  end.

(** [is_possible] runs the walk once, from the start marker and from the empty
    [visited] set the constructor left. *)
Definition is_possible (fuel : nat) (g : t) : option (result bool) :=
  let '(x, y) := Point.coords (start g) in
  r ← _did_miss_points fuel g ∅ x y;
  Some (result_map negb r.2).

End Grid.

(** ** class Subgrid(Grid) *)

Module Subgrid.

(** A subgrid has the attributes of a grid. *)
Definition t : Type := Grid.t.

Definition __init__ (grid : list str) : result t :=
  match Grid.__init__ grid with
  | Raise e => Raise e
  | Ok g => if length (Grid.points g) =? 2 then Ok g else Raise AssertionError
  end.

(** The list [grid_] that the loop of [from_points] builds: the rows [y] with
    [end.y <= y <= start.y], each cut to the columns [start.x .. end.x]. *)
Definition carve (grid : list str) (start end_ : Point.t) : list str :=
  omap (λ y, if (Z.of_nat y <=? Point.y start)%Z && (Z.of_nat y >=? Point.y end_)%Z
             then Some (slice (default [] (grid !! y))
                              (Some (Point.x start)) (Some (Point.x end_ + 1)%Z))
             else None)
       (seq 0 (length grid)).

Definition from_points (grid : list str) (start end_ : Point.t) : result t :=
  __init__ (carve grid start end_).

(** Python lists are mutable objects: [_move] appends to the list it is given
    and hands the same list to its recursive calls. The heap maps the
    identity of a list object to its current contents. *)
Definition loc : Type := nat.
Definition heap : Type := list (list Point.t).

Definition deref (h : heap) (l : loc) : list Point.t := default [] (h !! l).

Definition alloc (h : heap) (v : list Point.t) : loc * heap :=
  (length h, h ++ [v]).

Definition append (h : heap) (l : loc) (p : Point.t) : heap :=
  alter (λ v, v ++ [p]) l h.

(** [p == q] on two lists of list objects compares their contents. *)
Definition paths_eqb (h : heap) (p q : list loc) : bool :=
  bool_decide (deref h <$> p = deref h <$> q).

Fixpoint _move (fuel : nat) (sg : t) (x y : Z) (recording_path : loc)
    (h : heap) : option (list loc * heap) :=
  match fuel with
  | O => None
  | S fuel =>
      (* recording_path = recording_path or [] *)
      let '(recording_path, h) :=
        if bool_decide (deref h recording_path = []) then alloc h []
        else (recording_path, h) in
      let h := append h recording_path (Point.mk x y) in
      '(p1, h) ← (if (x <? Point.x (Grid.end_ sg))%Z
                  then _move fuel sg (x + 1)%Z y recording_path h
                  else Some ([], h));
      '(p2, h) ← (if (y >? Point.y (Grid.end_ sg))%Z
                  then _move fuel sg x (y - 1)%Z recording_path h
                  else Some ([], h));
      '(p3, h) ← (if (x <? Point.x (Grid.end_ sg))%Z && (y >? Point.y (Grid.end_ sg))%Z
                  then _move fuel sg (x + 1)%Z (y - 1)%Z recording_path h
                  else Some ([], h));
      if paths_eqb h p1 p2 && paths_eqb h p2 p3 && bool_decide (p3 = [])
      then Some ([recording_path], h)
      else
        (* the assertion that p1, p2 and p3 are lists holds by typing *)
        Some (p1 ++ p2 ++ p3, h)
  end.

(** [paths] calls [_move] with a fresh empty list; the result is read through
    the heap [_move] leaves behind. *)
Definition paths (fuel : nat) (sg : t) : option (list (list Point.t)) :=
  let '(l0, h) := alloc ([] : heap) [] in
  match _move fuel sg (Point.x (Grid.start sg)) (Point.y (Grid.start sg)) l0 h with
  | None => None
  | Some (ps, h) => Some (deref h <$> ps)
  end.

End Subgrid.

(** ** Grid.paths_count and main

    [paths_count] is a property of [Grid]; it is placed here because it
    builds subgrids. *)

(** The loop [for i, p in enumerate(self.points[1:])]. *)
Fixpoint paths_count_loop (fuel : nat) (g : Grid.t) (i : nat)
    (rest : list Point.t) (paths : Z) : option (result Z) :=
  match rest with
  | [] => Some (Ok paths)
  | p :: rest =>
      match Grid.points g !! i with
      | None => Some (Raise IndexError)
      | Some last_p =>
          match Subgrid.from_points (Grid.grid g) last_p p with
          | Raise e => Some (Raise e)
          | Ok sub =>
              ps ← Subgrid.paths fuel sub;
              paths_count_loop fuel g (S i) rest (paths * Z.of_nat (length ps))%Z
          end
      end
  end.

(** The value is [Some n] for the integer [n] and [None] for Python's
    [None]. *)
Definition paths_count (fuel : nat) (g : Grid.t) : option (result (option Z)) :=
  if length (Grid.points g) <=? 0 then Some (Ok (Some 0%Z))
  else if length (Grid.points g) =? 1 then Some (Ok (Some 1%Z))
  else
    match Grid.is_possible fuel g with
    | None => None
    | Some (Raise e) => Some (Raise e)
    | Some (Ok true) =>
        r ← paths_count_loop fuel g 0 (slice (Grid.points g) (Some 1%Z) None) 1%Z;
        Some (result_map Some r)
    | Some (Ok false) => Some (Ok None)
    end.

(** What [main] prints. *)
Inductive printed : Type :=
| PrintStr (s : string)
| PrintValue (v : option Z).

(** [main] once the rows have been read: the line printed and the exit
    code. *)
Definition main (fuel : nat) (grid : list str) : option (result (printed * Z)) :=
  match Grid.__init__ grid with
  | Raise e => Some (Raise e)
  | Ok g =>
      match Grid.is_possible fuel g with
      | None => None
      | Some (Raise e) => Some (Raise e)
      | Some (Ok false) => Some (Ok (PrintStr "<invalid input>", 1%Z))
      | Some (Ok true) =>
          match paths_count fuel g with
          | None => None
          | Some (Raise e) => Some (Raise e)
          | Some (Ok v) => Some (Ok (PrintValue v, 0%Z))
          end
      end
  end.

(** ** Grid.from_stream and main on a stream

    [from_stream] and [from_stdin] are class methods of [Grid]; they are
    placed here with [main]. A stream is the list of its lines, each line
    with its line terminator if it has one. *)

(** The characters [str.strip()] removes: tab, line feed, vertical tab, form
    feed, carriage return and space. *)
Definition is_space (c : ascii) : bool :=
  bool_decide (c ∈ ["009"; "010"; "011"; "012"; "013"; " "]%char).

Fixpoint lstrip (s : str) : str :=
  match s with
  | [] => []
  | c :: s' => if is_space c then lstrip s' else s
  end.

Definition rstrip (s : str) : str := reverse (lstrip (reverse s)).

Definition strip (s : str) : str := rstrip (lstrip s).

(** [s.split(sep)] for a one-character separator. *)
Fixpoint split (sep : ascii) (s : str) : list str :=
  match s with
  | [] => [[]]
  | c :: s' =>
      if bool_decide (c = sep) then [] :: split sep s'
      else match split sep s' with
           | piece :: pieces => (c :: piece) :: pieces
           | [] => [[c]]
           end
  end.

(** [stream.readline()]: the next line, or the empty string at the end of
    the stream, and the rest of the stream. *)
Definition readline (stream : list str) : str * list str :=
  match stream with
  | [] => ([], [])
  | line :: rest => (line, rest)
  end.

(** [from_stream] fails with ValueError when the first line does not unpack
    into two values; otherwise it does what the constructor does. *)
Inductive stream_result : Type :=
| ValueError
| Constructed (r : result Grid.t).

Definition from_stream (stream : list str) : stream_result :=
  let '(header, rest) := readline stream in
  match split ","%char header with
  | [width; height] => Constructed (Grid.__init__ (strip <$> rest))
  | _ => ValueError
  end.

Definition from_stdin (stdin : list str) : stream_result := from_stream stdin.

(** [main] as the source has it, from the standard input on. *)
Inductive outcome : Type :=
| Uncaught_ValueError
| Uncaught (e : exn)
| Exit (out : printed) (code : Z).

Definition main_stdin (fuel : nat) (stdin : list str) : option outcome :=
  match from_stdin stdin with
  | ValueError => Some Uncaught_ValueError
  | Constructed (Raise e) => Some (Uncaught e)
  | Constructed (Ok g) =>
      match Grid.is_possible fuel g with
      | None => None
      | Some (Raise e) => Some (Uncaught e)
      | Some (Ok false) => Some (Exit (PrintStr "<invalid input>") 1%Z)
      | Some (Ok true) =>
          match paths_count fuel g with
          | None => None
          | Some (Raise e) => Some (Uncaught e)
          | Some (Ok v) => Some (Exit (PrintValue v) 0%Z)
          end
      end
  end.

(** ** The calls of the validity walk

    [walk_call g k visited x y]: the [k]-th recursive call of the walk that
    [is_possible] starts is [_did_miss_points(x, y)], entered with the set
    [visited]. The conditions of [walk_next] are those under which
    [_did_miss_points] reaches its recursive call. *)

Inductive walk_call (g : Grid.t) : nat → gset Point.t → Z → Z → Prop :=
| walk_first :
    walk_call g 0 ∅ (Point.x (Grid.start g)) (Point.y (Grid.start g))
| walk_next k visited x y nearest :
    walk_call g k visited x y →
    Grid._nothing_before g (visited ∪ {[Point.mk x y]}) x y
      && Grid._mutually_exclusive_row_col g x y = true →
    Grid._get_nearest g x y = Some nearest →
    0 < size (list_to_set (Grid.points g) ∖ (visited ∪ {[Point.mk x y]})) →
    walk_call g (S k) (visited ∪ {[Point.mk x y]})
              (Point.x nearest) (Point.y nearest).

(** ** Delannoy numbers

    The closed form: choose the [k] diagonal steps among the columns and among
    the rows. *)

Fixpoint binom (n k : nat) : nat :=
  match n, k with
  | _, O => 1
  | O, S _ => 0
  | S n', S k' => binom n' k' + binom n' k
  end.

(** [f 0 + ... + f (n - 1)]. *)
Fixpoint sum_upto (n : nat) (f : nat → nat) : nat :=
  match n with
  | O => 0
  | S n' => sum_upto n' f + f n'
  end.

Definition delannoy_term (m n k : nat) : nat := binom m k * binom n k * 2 ^ k.

Definition delannoy (m n : nat) : nat :=
  sum_upto (S (Nat.min m n)) (delannoy_term m n).

(** ** Vocabulary of the properties *)

(** The order in which the constructor meets the markers: rows from the last
    to the first, columns from the first to the last. *)
Definition scan_lt (p q : Point.t) : Prop :=
  (Point.y q < Point.y p)%Z ∨ (Point.y p = Point.y q ∧ Point.x p < Point.x q)%Z.

(** The width the constructor reads off the first row. *)
Definition row_width (rows : list str) : nat := length (hd [] rows).

(** [q] can be reached from [p] by moves to the right and up the rows. *)
Definition reaches (p q : Point.t) : Prop :=
  (Point.x p ≤ Point.x q)%Z ∧ (Point.y q ≤ Point.y p)%Z.

Definition comparable (p q : Point.t) : Prop := reaches p q ∨ reaches q p.

(** The conditions of the validity check in the words of the specification.

    [remaining_mix]: with row [y] and column [x] taken out, a marker is left
    in the remaining rows and a marker is left in the remaining columns. *)
Definition contains_marker (s : str) : bool := bool_decide (marker ∈ s).

Definition remaining_mix (g : Grid.t) (x y : Z) : bool :=
  let cols := slice (Grid.cols g) None (Some x)
              ++ slice (Grid.cols g) (Some (x + 1)%Z) None in
  let rows := slice (Grid.rows g) None (Some y)
              ++ slice (Grid.rows g) (Some (y + 1)%Z) None in
  existsb contains_marker cols && existsb contains_marker rows.

(** [no_next_marker]: no unvisited marker [p] has [p.x >= x], [p.y <= y] and
    [p <> (x, y)]. [some_unvisited]: a marker is still unvisited. *)
Definition no_next_marker (g : Grid.t) (visited : gset Point.t) (x y : Z) : bool :=
  forallb (λ p, negb (bool_decide (p ∉ visited) && Grid.valid_point x y p))
          (Grid.points g).

Definition some_unvisited (g : Grid.t) (visited : gset Point.t) : bool :=
  existsb (λ p, bool_decide (p ∉ visited)) (Grid.points g).

(** The product of the Delannoy numbers of the rectangles between
    consecutive points of a list. *)
Fixpoint consecutive_product (points : list Point.t) : nat :=
  match points with
  | [] => 1
  | a :: rest =>
      match rest with
      | [] => 1
      | b :: _ =>
          delannoy (Z.to_nat (Point.x b - Point.x a)) (Z.to_nat (Point.y a - Point.y b))
          * consecutive_product rest
      end
  end.

(** The number of occurrences of a character. *)
Definition count_char (c : ascii) (s : str) : nat :=
  length (List.filter (λ c', bool_decide (c' = c)) s).

(** A line as a text file holds it. *)
Definition with_newline (row : str) : str := row ++ ["010"%char].

(** ** The grids of the end-to-end scenarios *)

Definition staircase : list str := py_str <$> ["..X"; ".X."; "X.."]%string.
Definition main_diagonal : list str := py_str <$> ["X.."; ".X."; "..X"]%string.
Definition skipped : list str := py_str <$> ["X.."; "X.X"; "..."]%string.
Definition lone_marker : list str := py_str <$> ["..."; ".X."]%string.

(** The subgrid between two consecutive markers of the staircase. *)
Definition unit_square : list str := py_str <$> [".X"; "X."]%string.

Definition unit_square_subgrid : Subgrid.t :=
  {| Grid.grid := unit_square;
     Grid.cols := unit_square;
     Grid.rows := unit_square;
     Grid.points := [Point.mk 0 1; Point.mk 1 0];
     Grid._start := Point.mk 0 1;
     Grid._end := Point.mk 1 0 |}.

(** * Properties *)

(** ** Python helpers *)

Section helpers.

Lemma fold_left_min_elem (ds : list Z) (d : Z) :
  fold_left Z.min ds d ∈ d :: ds.
Proof.
  revert d. induction ds as [|a ds IH]; intros d; simpl.
  - left.
  - specialize (IH (Z.min d a)).
    apply elem_of_cons in IH as [->|IH].
    + destruct (Z.min_spec d a) as [[_ ->]|[_ ->]]; set_solver.
    + set_solver.
Qed.

Lemma py_min_elem (l : list Z) (m : Z) : py_min l = Some m → m ∈ l.
Proof.
  destruct l as [|d ds]; simpl; [done|].
  intros [= <-]. apply fold_left_min_elem.
Qed.

Lemma py_min_is_Some (l : list Z) : l ≠ [] → is_Some (py_min l).
Proof. destruct l; [done|]. by eexists. Qed.

Lemma index_lookup (l : list Z) (v : Z) (i : nat) :
  index l v = Some i → l !! i = Some v.
Proof.
  revert i. induction l as [|d ds IH]; intros i; simpl; [done|].
  destruct (Z.eqb_spec d v) as [->|_].
  - by intros [= <-].
  - destruct (index ds v) as [j|] eqn:E; simpl; [|done].
    intros [= <-]. by apply IH.
Qed.

Lemma index_is_Some (l : list Z) (v : Z) : v ∈ l → is_Some (index l v).
Proof.
  induction l as [|d ds IH]; simpl.
  - by intros ?%elem_of_nil.
  - intros Hv. destruct (Z.eqb_spec d v) as [->|Hne]; [by eexists|].
    apply elem_of_cons in Hv as [->|Hv]; [done|].
    destruct (IH Hv) as [j ->]. by eexists.
Qed.

Lemma slice_sublist {A} (l : list A) lo hi : slice l lo hi `sublist_of` l.
Proof.
  unfold slice. etrans; [apply sublist_take|apply sublist_drop].
Qed.

Lemma slice_elem {A} (l : list A) lo hi a : a ∈ slice l lo hi → a ∈ l.
Proof. intros Ha. by eapply elem_of_sublist; [|apply slice_sublist]. Qed.

Lemma slice_to_0 {A} (l : list A) : slice l None (Some 0%Z) = [].
Proof. unfold slice; simpl. by rewrite take_0. Qed.

(** [l[lo:hi]] for bounds within the list. *)
Lemma slice_in_range {A} (l : list A) (lo hi : nat) :
  lo ≤ hi → hi ≤ length l →
  slice l (Some (Z.of_nat lo)) (Some (Z.of_nat hi)) = take (hi - lo) (drop lo l).
Proof.
  intros Hlo Hhi. unfold slice, clamp; simpl.
  destruct (Z.ltb_spec (Z.of_nat lo) 0); [lia|].
  destruct (Z.ltb_spec (Z.of_nat hi) 0); [lia|].
  rewrite !Nat2Z.id, !Nat.min_l by lia. done.
Qed.

Lemma slice_from_1 {A} (l : list A) :
  slice l (Some 1%Z) None = drop 1 l.
Proof.
  unfold slice, clamp; simpl.
  destruct l as [|a l]; simpl; [done|].
  rewrite drop_0. apply take_ge. lia.
Qed.

End helpers.

(** ** The marker list *)

Section scan.
Variables (grid : list str) (width : nat).

Lemma elem_of_scan_row (y : nat) (p : Point.t) :
  p ∈ Grid.scan_row grid width y ↔
  ∃ x, x < width ∧ Grid.is_marker grid y x = true
       ∧ p = Point.mk (Z.of_nat x) (Z.of_nat y).
Proof.
  unfold Grid.scan_row. rewrite list_elem_of_omap. split.
  - intros (x & Hx%elem_of_seq & Hp). exists x.
    destruct (Grid.is_marker grid y x); [|done].
    split; [lia|]. split; congruence.
  - intros (x & Hx & Hm & ->). exists x. rewrite Hm.
    split; [apply elem_of_seq; lia|done].
Qed.

Lemma elem_of_scan (height : nat) (p : Point.t) :
  p ∈ Grid.scan grid width height ↔
  ∃ x y, y < height ∧ x < width ∧ Grid.is_marker grid y x = true
         ∧ p = Point.mk (Z.of_nat x) (Z.of_nat y).
Proof.
  unfold Grid.scan. rewrite list_elem_of_bind. split.
  - intros (y & (x & ? & ? & ->)%elem_of_scan_row & Hy).
    apply elem_of_reverse, elem_of_seq in Hy. exists x, y. split_and!; [lia|done..].
  - intros (x & y & ? & ? & ? & ->). exists y. split.
    + apply elem_of_scan_row. by exists x.
    + apply elem_of_reverse, elem_of_seq. lia.
Qed.

Lemma scan_S (height : nat) :
  Grid.scan grid width (S height) =
  Grid.scan_row grid width height ++ Grid.scan grid width height.
Proof.
  unfold Grid.scan. by rewrite seq_S, reverse_snoc, bind_cons.
Qed.

(** One row is met from left to right. *)
Lemma scan_row_from_sorted (y s n : nat) :
  StronglySorted scan_lt
    (omap (λ x, if Grid.is_marker grid y x
                then Some (Point.mk (Z.of_nat x) (Z.of_nat y)) else None)
          (seq s n)).
Proof.
  revert s. induction n as [|n IH]; intros s; simpl; [constructor|].
  destruct (Grid.is_marker grid y s); [|apply IH].
  constructor; [apply IH|].
  apply Forall_forall. intros p (x & Hx%elem_of_seq & Hp)%list_elem_of_omap.
  destruct (Grid.is_marker grid y x); [|done]. injection Hp as <-.
  right; simpl. lia.
Qed.

Lemma scan_sorted (height : nat) :
  StronglySorted scan_lt (Grid.scan grid width height).
Proof.
  induction height as [|h IH]; [constructor|].
  rewrite scan_S. apply StronglySorted_app_2; [|apply scan_row_from_sorted|done].
  intros p q (x & _ & _ & ->)%elem_of_scan_row (x' & y' & ? & _ & _ & ->)%elem_of_scan.
  left; simpl. lia.
Qed.

End scan.

Lemma scan_lt_irrefl (p : Point.t) : ¬ scan_lt p p.
Proof. unfold scan_lt. lia. Qed.

Lemma StronglySorted_NoDup {A} (R : relation A) (l : list A) :
  (∀ a, ¬ R a a) → StronglySorted R l → NoDup l.
Proof.
  intros Hirr. induction 1 as [|a l _ IH Hall]; constructor; [|done].
  intros Ha. rewrite Forall_forall in Hall. by apply (Hirr a), Hall.
Qed.

(** Two positions of a sorted list are in order. *)
Lemma StronglySorted_lookup {A} (R : relation A) (l : list A) (i j : nat) a b :
  StronglySorted R l → i < j → l !! i = Some a → l !! j = Some b → R a b.
Proof.
  intros Hs. revert i j. induction Hs as [|c l _ IH Hall]; intros i j Hij Hi Hj.
  - done.
  - destruct j as [|j]; [lia|]. destruct i as [|i]; simpl in *.
    + injection Hi as ->. rewrite Forall_forall in Hall.
      apply Hall. by eapply list_elem_of_lookup_2.
    + apply (IH i j); [lia|done..].
Qed.

(** ** What the constructor establishes *)

Section init.
Variables (rows : list str) (g : Grid.t).
Hypothesis Hinit : Grid.__init__ rows = Ok g.

Lemma init_inv :
  rows ≠ []
  ∧ Forall (λ r, length r = row_width rows) rows
  ∧ Grid.grid g = rows ∧ Grid.rows g = rows
  ∧ Grid.cols g = Grid.column rows <$> seq 0 (row_width rows)
  ∧ Grid.points g = Grid.scan rows (row_width rows) (length rows)
  ∧ head (Grid.points g) = Some (Grid.start g)
  ∧ last (Grid.points g) = Some (Grid.end_ g).
Proof.
  unfold row_width. destruct rows as [|r0 rest] eqn:Hrows; [done|].
  simpl hd. unfold Grid.__init__ in Hinit. rewrite <-Hrows in *.
  match type of Hinit with
  | context [negb ?b] => destruct b eqn:Hall; simpl negb in Hinit; cbv iota in Hinit
  end; [|done].
  rewrite Nat.eqb_refl in Hinit; simpl negb in Hinit; cbv iota in Hinit.
  destruct (Grid.scan rows (length r0) (length rows)) as [|p0 ps] eqn:Hscan; [done|].
  injection Hinit as <-; simpl.
  split_and!; try done.
  - by rewrite Hrows.
  - apply Forall_forall. intros r Hr.
    rewrite forallb_forall in Hall. apply Nat.eqb_eq, Hall. by apply list_elem_of_In.
  - unfold Grid.end_; simpl.
    destruct (last (p0 :: ps)) as [q|] eqn:E; [done|].
    by apply last_None in E.
Qed.

Lemma init_points_elem (p : Point.t) :
  p ∈ Grid.points g ↔
  ∃ x y, y < length rows ∧ x < row_width rows ∧ Grid.is_marker rows y x = true
         ∧ p = Point.mk (Z.of_nat x) (Z.of_nat y).
Proof.
  destruct init_inv as (_ & _ & _ & _ & _ & -> & _). apply elem_of_scan.
Qed.

Lemma init_points_sorted : StronglySorted scan_lt (Grid.points g).
Proof.
  destruct init_inv as (_ & _ & _ & _ & _ & -> & _). apply scan_sorted.
Qed.

Lemma init_points_NoDup : NoDup (Grid.points g).
Proof.
  eapply StronglySorted_NoDup; [apply scan_lt_irrefl|apply init_points_sorted].
Qed.

Lemma init_start_elem : Grid.start g ∈ Grid.points g.
Proof.
  destruct init_inv as (_ & _ & _ & _ & _ & _ & Hhd & _).
  destruct (Grid.points g); simplify_eq/=. left.
Qed.

Lemma init_points_length : 1 ≤ length (Grid.points g).
Proof.
  pose proof init_start_elem as H. destruct (Grid.points g); simpl; [|lia].
  by apply elem_of_nil in H.
Qed.

(** Every column string is as long as the grid is high. *)
Lemma init_cols_length (c : str) : c ∈ Grid.cols g → length c = length rows.
Proof.
  destruct init_inv as (_ & _ & _ & _ & -> & _).
  intros (j & -> & _)%list_elem_of_fmap. unfold Grid.column. by rewrite length_fmap.
Qed.

(** The test of [_mutually_exclusive_row_col] looks for a whole row and a
    whole column equal to ["X"], not for the character: at a marker it never
    fails. *)
Lemma mutually_exclusive_at_marker (x y : Z) :
  Point.mk x y ∈ Grid.points g → Grid._mutually_exclusive_row_col g x y = true.
Proof.
  intros (i & j & Hj & Hi & _ & [= -> ->])%init_points_elem.
  unfold Grid._mutually_exclusive_row_col.
  destruct init_inv as (_ & _ & _ & Hrows & _). rewrite Hrows.
  apply negb_true_iff, andb_false_iff.
  destruct (bool_decide (X ∈ _ ++ _)) eqn:Hc; [right|by left].
  apply bool_decide_eq_true in Hc.
  assert (length rows = 1) as Hlen.
  { apply elem_of_app in Hc as [Hc|Hc]; apply slice_elem, init_cols_length in Hc;
      by rewrite <-Hc. }
  assert (j = 0) as -> by lia.
  apply bool_decide_eq_false.
  change (Z.of_nat 0 + 1)%Z with 1%Z. change (Z.of_nat 0) with 0%Z.
  rewrite slice_to_0, slice_from_1. simpl.
  destruct rows as [|r [|? ?]]; simplify_eq/=. by intros ?%elem_of_nil.
Qed.

End init.

(** ** The pieces of one step of the walk *)

Lemma point_eta (p : Point.t) : Point.mk (Point.x p) (Point.y p) = p.
Proof. by destruct p. Qed.

Lemma valid_point_spec (x y : Z) (p : Point.t) :
  Grid.valid_point x y p = true ↔
  (x ≤ Point.x p)%Z ∧ (Point.y p ≤ y)%Z ∧ p ≠ Point.mk x y.
Proof.
  unfold Grid.valid_point. destruct p as [px py]; simpl.
  rewrite !andb_true_iff, negb_true_iff, andb_false_iff.
  rewrite Z.geb_le, Z.leb_le, !Z.eqb_neq. split.
  - intros [[? ?] Hne]. split_and!; [done..|]. intros [= -> ->]. lia.
  - intros (? & ? & Hne). split_and!; [done..|].
    destruct (decide (px = x)) as [->|]; [|by left].
    right. intros ->. done.
Qed.

Lemma nothing_before_spec (g : Grid.t) (visited : gset Point.t) (x y : Z) :
  Grid._nothing_before g visited x y = true ↔
  ∀ p, p ∈ Grid.points g → p ∉ visited → (x ≤ Point.x p)%Z ∧ (Point.y p ≤ y)%Z.
Proof.
  unfold Grid._nothing_before. rewrite forallb_forall. split.
  - intros H p Hp Hv. specialize (H p). rewrite <-list_elem_of_In in H.
    specialize (H Hp). rewrite decide_True in H by done.
    apply negb_true_iff, orb_false_iff in H as [?%Z.ltb_ge Hgt].
    rewrite Z.gtb_ltb in Hgt. apply Z.ltb_ge in Hgt. lia.
  - intros H p Hp%list_elem_of_In. destruct (decide (p ∉ visited)) as [Hv|]; [|done].
    destruct (H p Hp Hv). apply negb_true_iff, orb_false_iff.
    split; [by apply Z.ltb_ge|]. rewrite Z.gtb_ltb. by apply Z.ltb_ge.
Qed.

Lemma diffs_pos (g : Grid.t) (visited : gset Point.t) :
  0 < size (list_to_set (Grid.points g) ∖ visited : gset Point.t) ↔
  ∃ p, p ∈ Grid.points g ∧ p ∉ visited.
Proof.
  split.
  - intros (p & Hp)%size_pos_elem_of. exists p. set_solver.
  - intros (p & Hp & Hv).
    assert (size (list_to_set (Grid.points g) ∖ visited : gset Point.t) ≠ 0); [|lia].
    apply size_non_empty_iff. set_solver.
Qed.

Lemma get_nearest_Some (g : Grid.t) (x y : Z) (p : Point.t) :
  Grid._get_nearest g x y = Some p →
  p ∈ Grid.points g ∧ Grid.valid_point x y p = true.
Proof.
  unfold Grid._get_nearest. case_match; [done|].
  intros (m & _ & (i & _ & Hp)%bind_Some)%bind_Some.
  apply list_elem_of_lookup_2, list_elem_of_In, filter_In in Hp as [Hp ?].
  by apply list_elem_of_In in Hp.
Qed.

(** [_get_nearest] returns None only when there is no candidate. *)
Lemma get_nearest_None (g : Grid.t) (x y : Z) (p : Point.t) :
  Grid._get_nearest g x y = None →
  p ∈ Grid.points g → Grid.valid_point x y p = false.
Proof.
  unfold Grid._get_nearest.
  set (valid_points := List.filter _ _).
  set (distances := _ <$> valid_points).
  intros Hn Hp. destruct (Grid.valid_point x y p) eqn:Hv; [exfalso|done].
  assert (p ∈ valid_points) as Hin.
  { apply list_elem_of_In, filter_In. by rewrite <-list_elem_of_In. }
  destruct (Nat.ltb_spec (length valid_points) 1) as [Hlen|_].
  { destruct valid_points; simpl in *; [by apply elem_of_nil in Hin|lia]. }
  destruct (py_min_is_Some distances) as [m Hm].
  { subst distances. destruct valid_points; [by apply elem_of_nil in Hin|done]. }
  destruct (index_is_Some distances m) as [i Hi]; [by apply py_min_elem|].
  rewrite Hm in Hn; simpl in Hn. rewrite Hi in Hn; simpl in Hn.
  apply index_lookup, lookup_lt_Some in Hi.
  subst distances. rewrite length_fmap in Hi.
  apply lookup_lt_is_Some_2 in Hi as [q Hq]. congruence.
Qed.

(** The step function, unfolded once. *)
Lemma did_miss_points_S (fuel : nat) (g : Grid.t) (visited : gset Point.t) (x y : Z) :
  Grid._did_miss_points (S fuel) g visited x y =
  let visited := visited ∪ {[Point.mk x y]} in
  if negb (Grid._nothing_before g visited x y && Grid._mutually_exclusive_row_col g x y)
  then Some (visited, Ok true)
  else
    match Grid._get_nearest g x y with
    | None =>
        if 0 <? size (list_to_set (Grid.points g) ∖ visited)
        then Some (visited, Ok true) else Some (visited, Ok false)
    | Some nearest =>
        if 0 <? size (list_to_set (Grid.points g) ∖ visited)
        then Grid._did_miss_points fuel g visited (Point.x nearest) (Point.y nearest)
        else Some (visited, Raise (RuntimeError Grid.logic_error))
    end.
Proof. reflexivity. Qed.

(** ** Invariants of the walk *)

Section walk.
Variables (rows : list str) (g : Grid.t).
Hypothesis Hinit : Grid.__init__ rows = Ok g.

(** The current marker is a marker; every visited marker is a marker that
    lies weakly up-left of the current one and differs from it; the [k]-th
    call has visited [k] markers. *)
Lemma walk_call_inv k visited x y :
  walk_call g k visited x y →
  Point.mk x y ∈ Grid.points g
  ∧ (∀ p, p ∈ visited →
       p ∈ Grid.points g ∧ (Point.x p ≤ x)%Z ∧ (y ≤ Point.y p)%Z ∧ p ≠ Point.mk x y)
  ∧ size visited = k.
Proof.
  induction 1 as [|k visited x y nearest _ (Hcur & Hvis & Hsize) _ Hnear _].
  - rewrite point_eta. split; [by eapply init_start_elem|].
    split; [set_solver|apply size_empty].
  - apply get_nearest_Some in Hnear as [Hin (Hx & Hy & Hne)%valid_point_spec].
    rewrite point_eta. split; [done|]. split.
    + intros p [Hp| ->%elem_of_singleton]%elem_of_union.
      * destruct (Hvis p Hp) as (? & ? & ? & Hpne).
        split; [done|]. split; [lia|]. split; [lia|].
        intros ->. apply Hne. rewrite <-(point_eta nearest). f_equal; lia.
      * simpl. split_and!; [done..|]. congruence.
    + rewrite size_union, size_singleton; [lia|].
      intros p Hp ->%elem_of_singleton. by destruct (Hvis _ Hp) as (_ & _ & _ & ?).
Qed.

Lemma walk_call_fresh k visited x y :
  walk_call g k visited x y → Point.mk x y ∉ visited.
Proof.
  intros (_ & Hvis & _)%walk_call_inv Hin. by destruct (Hvis _ Hin) as (_ & _ & _ & ?).
Qed.

Lemma walk_call_depth k visited x y :
  walk_call g k visited x y → k < length (Grid.points g).
Proof.
  intros Hw. pose proof (walk_call_fresh _ _ _ _ Hw) as Hfresh.
  destruct (walk_call_inv _ _ _ _ Hw) as (Hcur & Hvis & <-).
  rewrite <-(size_list_to_set (C:=gset Point.t)) by by eapply init_points_NoDup.
  apply subset_size. split.
  - intros p Hp. apply elem_of_list_to_set. by destruct (Hvis p Hp).
  - intros Hsub. apply Hfresh, Hsub, elem_of_list_to_set, Hcur.
Qed.

(** The walk from the start, resumed at its [k]-th call. *)
Lemma walk_call_run k visited x y n :
  walk_call g k visited x y →
  Grid._did_miss_points (k + n) g ∅ (Point.x (Grid.start g)) (Point.y (Grid.start g))
  = Grid._did_miss_points n g visited x y.
Proof.
  intros Hw. revert n.
  induction Hw as [|k visited x y nearest _ IH Hguard Hnear Hdiffs]; intros n; [done|].
  replace (S k + n) with (k + S n) by lia. rewrite IH, did_miss_points_S.
  cbv zeta. rewrite Hguard, Hnear. simpl negb. cbv iota.
  by apply Nat.ltb_lt in Hdiffs as ->.
Qed.

(** A call with as much fuel as there are markers left returns. *)
Lemma walk_call_returns n k visited x y :
  walk_call g k visited x y → length (Grid.points g) ≤ k + n →
  is_Some (Grid._did_miss_points n g visited x y).
Proof.
  revert k visited x y. induction n as [|n IH]; intros k visited x y Hw Hn.
  - apply walk_call_depth in Hw. lia.
  - rewrite did_miss_points_S. cbv zeta.
    destruct (_ && _) eqn:Hguard; simpl negb; cbv iota; [|by eexists].
    destruct (Grid._get_nearest g x y) as [nearest|] eqn:Hnear.
    + destruct (Nat.ltb_spec 0 (size (list_to_set (Grid.points g) ∖ (visited ∪ {[Point.mk x y]}))))
        as [Hdiffs|_]; [|by eexists].
      apply (IH (S k)); [by eapply walk_next|lia].
    + case_match; by eexists.
Qed.

(** No call of the walk raises. *)
Lemma walk_call_no_raise n k visited x y visited' e :
  walk_call g k visited x y →
  Grid._did_miss_points n g visited x y ≠ Some (visited', Raise e).
Proof.
  revert k visited x y. induction n as [|n IH]; intros k visited x y Hw; [done|].
  rewrite did_miss_points_S. cbv zeta.
  destruct (_ && _) eqn:Hguard; simpl negb; cbv iota; [|done].
  destruct (Grid._get_nearest g x y) as [nearest|] eqn:Hnear; [|by case_match].
  destruct (Nat.ltb_spec 0 (size (list_to_set (Grid.points g) ∖ (visited ∪ {[Point.mk x y]}))))
    as [Hdiffs|Hdiffs].
  - apply (IH (S k)). by eapply walk_next.
  - exfalso. apply get_nearest_Some in Hnear as [Hin (Hx & Hy & Hne)%valid_point_spec].
    destruct (walk_call_inv _ _ _ _ Hw) as (_ & Hvis & _).
    assert (nearest ∈ visited ∪ {[Point.mk x y]}) as Hv.
    { destruct (decide (nearest ∈ visited ∪ {[Point.mk x y]})) as [|Hv]; [done|].
      assert (0 < size (list_to_set (Grid.points g) ∖ (visited ∪ {[Point.mk x y]})));
        [|lia].
      apply diffs_pos. eauto. }
    apply elem_of_union in Hv as [Hv|Hv%elem_of_singleton]; [|done].
    destruct (Hvis _ Hv) as (_ & ? & ? & _). apply Hne.
    rewrite <-(point_eta nearest). f_equal; lia.
Qed.

End walk.

(** ** Delannoy numbers: the three-term recurrence *)

Section delannoy.

Lemma binom_0_r (n : nat) : binom n 0 = 1.
Proof. by destruct n. Qed.

Lemma binom_gt (n k : nat) : n < k → binom n k = 0.
Proof.
  revert k. induction n as [|n IH]; intros [|k] Hk; simpl; try lia.
  rewrite !IH by lia. done.
Qed.

Lemma sum_upto_ext (n : nat) (f f' : nat → nat) :
  (∀ k, k < n → f k = f' k) → sum_upto n f = sum_upto n f'.
Proof.
  induction n as [|n IH]; intros Hf; simpl; [done|].
  rewrite IH, Hf by (intros; try apply Hf; lia). done.
Qed.

Lemma sum_upto_add (n : nat) (f f' : nat → nat) :
  sum_upto n (λ k, f k + f' k) = sum_upto n f + sum_upto n f'.
Proof. induction n as [|n IH]; simpl; [done|]. rewrite IH. lia. Qed.

Lemma sum_upto_mul (n c : nat) (f : nat → nat) :
  sum_upto n (λ k, c * f k) = c * sum_upto n f.
Proof. induction n as [|n IH]; simpl; [lia|]. rewrite IH. lia. Qed.

Lemma sum_upto_S_l (n : nat) (f : nat → nat) :
  sum_upto (S n) f = f 0 + sum_upto n (λ k, f (S k)).
Proof.
  induction n as [|n IH]; [simpl; lia|].
  change (sum_upto (S (S n)) f) with (sum_upto (S n) f + f (S n)).
  rewrite IH. simpl. lia.
Qed.

(** Terms past the support do not count. *)
Lemma sum_upto_support (n n' : nat) (f : nat → nat) :
  n ≤ n' → (∀ k, n ≤ k → f k = 0) → sum_upto n' f = sum_upto n f.
Proof.
  intros Hn Hf. induction Hn as [|n' Hn IH]; [done|].
  simpl. rewrite IH, Hf by lia. lia.
Qed.

Lemma delannoy_term_support (m n k : nat) :
  S (Nat.min m n) ≤ k → delannoy_term m n k = 0.
Proof.
  intros Hk. unfold delannoy_term.
  destruct (Nat.min_spec m n) as [[_ E]|[_ E]]; rewrite E in Hk.
  - rewrite (binom_gt m k) by lia. lia.
  - rewrite (binom_gt n k) by lia. lia.
Qed.

Lemma delannoy_upto (m n N : nat) :
  S (Nat.min m n) ≤ N → delannoy m n = sum_upto N (delannoy_term m n).
Proof.
  intros HN. symmetry. by apply sum_upto_support, delannoy_term_support.
Qed.

Lemma delannoy_0_r (m : nat) : delannoy m 0 = 1.
Proof.
  unfold delannoy, delannoy_term. rewrite Nat.min_0_r. simpl. rewrite binom_0_r. lia.
Qed.

Lemma delannoy_0_l (n : nat) : delannoy 0 n = 1.
Proof. unfold delannoy, delannoy_term. simpl. rewrite binom_0_r. lia. Qed.

Lemma delannoy_pos (m n : nat) : 1 ≤ delannoy m n.
Proof.
  rewrite (delannoy_upto m n (S (Nat.min m n))) by done.
  rewrite sum_upto_S_l. unfold delannoy_term at 1. rewrite !binom_0_r. simpl. lia.
Qed.

(** A path to the far corner starts with a step right, a step up or a
    diagonal step. *)
Lemma delannoy_rec (m n : nat) :
  delannoy (S m) (S n) = delannoy m (S n) + delannoy (S m) n + delannoy m n.
Proof.
  set (M := S (Nat.min m n)).
  set (A := sum_upto M (λ k, binom m k * binom n k * 2 ^ k)).
  set (B := sum_upto M (λ k, binom m k * binom n (S k) * 2 ^ k)).
  set (C := sum_upto M (λ k, binom m (S k) * binom n k * 2 ^ k)).
  set (E := sum_upto M (λ k, binom m (S k) * binom n (S k) * 2 ^ k)).
  assert (delannoy m n = A) as HA by (by apply delannoy_upto).
  assert (∀ m' n' S', S (Nat.min m' n') ≤ S M →
            (∀ k, delannoy_term m' n' (S k) = 2 * S' k) →
            delannoy m' n' = 1 + 2 * sum_upto M S') as Hshift.
  { intros m' n' S' Hle Hterm. rewrite (delannoy_upto m' n' (S M)) by done.
    rewrite sum_upto_S_l. unfold delannoy_term at 1. rewrite !binom_0_r.
    rewrite <-sum_upto_mul. simpl Nat.pow.
    rewrite (sum_upto_ext M _ (λ k, 2 * S' k)) by (intros; apply Hterm). lia. }
  assert (delannoy m n = 1 + 2 * E) as HE.
  { apply Hshift; [lia|]. intros k. unfold delannoy_term.
    rewrite Nat.pow_succ_r'. ring. }
  assert (delannoy (S m) (S n) = 1 + 2 * (A + B + C + E)) as ->.
  { subst A B C E. rewrite <-!sum_upto_add. apply Hshift; [subst M; lia|].
    intros k. unfold delannoy_term. rewrite Nat.pow_succ_r'. simpl binom. ring. }
  assert (delannoy m (S n) = 1 + 2 * (C + E)) as ->.
  { subst C E. rewrite <-!sum_upto_add. apply Hshift; [subst M; lia|].
    intros k. unfold delannoy_term. rewrite Nat.pow_succ_r'. simpl binom. ring. }
  assert (delannoy (S m) n = 1 + 2 * (B + E)) as ->.
  { subst B E. rewrite <-!sum_upto_add. apply Hshift; [subst M; lia|].
    intros k. unfold delannoy_term. rewrite Nat.pow_succ_r'. simpl binom. ring. }
  lia.
Qed.

(** The first entries of the table. *)
Example delannoy_table :
  delannoy 1 1 = 3 ∧ delannoy 1 2 = 5 ∧ delannoy 2 2 = 13
  ∧ delannoy 2 3 = 25 ∧ delannoy 3 3 = 63.
Proof. by vm_compute. Qed.

End delannoy.

(** ** The path enumeration *)

Section move.
Variable sg : Subgrid.t.

Lemma paths_eqb_length (h : Subgrid.heap) (p q : list Subgrid.loc) :
  Subgrid.paths_eqb h p q = true → length p = length q.
Proof.
  unfold Subgrid.paths_eqb. intros H%bool_decide_eq_true.
  apply (f_equal length) in H. by rewrite !length_fmap in H.
Qed.

Lemma move_S (fuel : nat) (x y : Z) (recording_path : Subgrid.loc) (h : Subgrid.heap) :
  Subgrid._move (S fuel) sg x y recording_path h =
  let '(recording_path, h) :=
    if bool_decide (Subgrid.deref h recording_path = []) then Subgrid.alloc h []
    else (recording_path, h) in
  let h := Subgrid.append h recording_path (Point.mk x y) in
  '(p1, h) ← (if (x <? Point.x (Grid.end_ sg))%Z
              then Subgrid._move fuel sg (x + 1)%Z y recording_path h
              else Some ([], h));
  '(p2, h) ← (if (y >? Point.y (Grid.end_ sg))%Z
              then Subgrid._move fuel sg x (y - 1)%Z recording_path h
              else Some ([], h));
  '(p3, h) ← (if (x <? Point.x (Grid.end_ sg))%Z && (y >? Point.y (Grid.end_ sg))%Z
              then Subgrid._move fuel sg (x + 1)%Z (y - 1)%Z recording_path h
              else Some ([], h));
  if Subgrid.paths_eqb h p1 p2 && Subgrid.paths_eqb h p2 p3 && bool_decide (p3 = [])
  then Some ([recording_path], h)
  else Some (p1 ++ p2 ++ p3, h).
Proof. reflexivity. Qed.

(** From [(x, y)], weakly down-left of the end marker, the enumeration
    returns, and it returns as many paths as the Delannoy number of the
    remaining rectangle. *)
Lemma move_count (fuel : nat) (x y : Z) (recording_path : Subgrid.loc) (h : Subgrid.heap) :
  (x ≤ Point.x (Grid.end_ sg))%Z → (Point.y (Grid.end_ sg) ≤ y)%Z →
  Z.to_nat (Point.x (Grid.end_ sg) - x) + Z.to_nat (y - Point.y (Grid.end_ sg)) < fuel →
  ∃ l h', Subgrid._move fuel sg x y recording_path h = Some (l, h')
          ∧ length l = delannoy (Z.to_nat (Point.x (Grid.end_ sg) - x))
                                (Z.to_nat (y - Point.y (Grid.end_ sg))).
Proof.
  set (ex := Point.x (Grid.end_ sg)). set (ey := Point.y (Grid.end_ sg)).
  revert x y recording_path h.
  induction fuel as [|fuel IH]; intros x y rp h Hx Hy Hfuel; [lia|].
  rewrite move_S. fold ex ey.
  destruct (if bool_decide (Subgrid.deref h rp = []) then Subgrid.alloc h [] else (rp, h))
    as [rp' h0].
  cbv zeta. generalize (Subgrid.append h0 rp' (Point.mk x y)). clear h h0. intros h.
  rewrite !Z.gtb_ltb.
  destruct (Z.ltb_spec x ex) as [Hx'|Hx'], (Z.ltb_spec ey y) as [Hy'|Hy']; simpl andb; cbv iota.
  - (* all three moves *)
    destruct (IH (x + 1)%Z y rp' h) as (l1 & h1 & -> & Hl1); [lia..|]. simpl.
    destruct (IH x (y - 1)%Z rp' h1) as (l2 & h2 & -> & Hl2); [lia..|]. simpl.
    destruct (IH (x + 1)%Z (y - 1)%Z rp' h2) as (l3 & h3 & -> & Hl3); [lia..|]. simpl.
    pose proof (delannoy_pos (Z.to_nat (ex - (x + 1))) (Z.to_nat (y - 1 - ey))) as Hpos.
    rewrite (bool_decide_eq_false_2 (l3 = [])), !andb_false_r
      by (intros ->; simpl in Hl3; lia).
    eexists _, _. split; [done|]. rewrite !length_app, Hl1, Hl2, Hl3.
    replace (Z.to_nat (ex - x)) with (S (Z.to_nat (ex - (x + 1)))) by lia.
    replace (Z.to_nat (y - ey)) with (S (Z.to_nat (y - 1 - ey))) by lia.
    rewrite delannoy_rec.
    replace (Z.to_nat (y - ey)) with (S (Z.to_nat (y - 1 - ey))) by lia.
    replace (Z.to_nat (ex - x)) with (S (Z.to_nat (ex - (x + 1)))) by lia.
    lia.
  - (* the bottom row of moves: right only *)
    destruct (IH (x + 1)%Z y rp' h) as (l1 & h1 & -> & Hl1); [lia..|]. simpl.
    pose proof (delannoy_pos (Z.to_nat (ex - (x + 1))) (Z.to_nat (y - ey))) as Hpos.
    destruct (Subgrid.paths_eqb h1 l1 []) eqn:Heq.
    { apply paths_eqb_length in Heq. simpl in Heq. lia. }
    simpl. eexists _, _. split; [done|]. rewrite !app_nil_r, Hl1.
    replace (Z.to_nat (y - ey)) with 0 by lia. by rewrite !delannoy_0_r.
  - (* the last column: up only *)
    simpl.
    destruct (IH x (y - 1)%Z rp' h) as (l2 & h2 & -> & Hl2); [lia..|]. simpl.
    pose proof (delannoy_pos (Z.to_nat (ex - x)) (Z.to_nat (y - 1 - ey))) as Hpos.
    destruct (Subgrid.paths_eqb h2 [] l2) eqn:Heq.
    { apply paths_eqb_length in Heq. simpl in Heq. lia. }
    simpl. eexists _, _. split; [done|]. rewrite !app_nil_r, Hl2.
    replace (Z.to_nat (ex - x)) with 0 by lia. by rewrite !delannoy_0_l.
  - (* the end marker *)
    simpl. eexists _, _. split; [done|]. simpl.
    replace (Z.to_nat (ex - x)) with 0 by lia. by rewrite delannoy_0_l.
Qed.

(** [paths]: the same count, from the start marker. *)
Lemma paths_count_delannoy (fuel : nat) :
  let dx := (Point.x (Grid.end_ sg) - Point.x (Grid.start sg))%Z in
  let dy := (Point.y (Grid.start sg) - Point.y (Grid.end_ sg))%Z in
  (0 ≤ dx)%Z → (0 ≤ dy)%Z → Z.to_nat dx + Z.to_nat dy < fuel →
  ∃ ps, Subgrid.paths fuel sg = Some ps
        ∧ length ps = delannoy (Z.to_nat dx) (Z.to_nat dy).
Proof.
  intros dx dy Hdx Hdy Hfuel. unfold Subgrid.paths.
  simpl.
  destruct (move_count fuel (Point.x (Grid.start sg)) (Point.y (Grid.start sg))
                       0 [[]]) as (l & h' & -> & Hl); [lia..|].
  eexists. split; [done|]. by rewrite length_fmap.
Qed.

End move.

(** ** Valid layouts are chains *)

Lemma reaches_antisym (p q : Point.t) : reaches p q → reaches q p → p = q.
Proof.
  unfold reaches. destruct p, q; simpl. intros [? ?] [? ?]. f_equal; lia.
Qed.

Section chain.
Variables (rows : list str) (g : Grid.t).
Hypothesis Hinit : Grid.__init__ rows = Ok g.

(** When a call of the walk answers that no marker was missed, any two
    markers are comparable. *)
Lemma walk_call_chain n k visited x y visited' :
  walk_call g k visited x y →
  (∀ p q, p ∈ visited → q ∈ visited → comparable p q) →
  Grid._did_miss_points n g visited x y = Some (visited', Ok false) →
  ∀ p q, p ∈ Grid.points g → q ∈ Grid.points g → comparable p q.
Proof.
  revert k visited x y. induction n as [|n IH]; intros k visited x y Hw Hcmp; [done|].
  destruct (walk_call_inv rows g Hinit _ _ _ _ Hw) as (_ & Hvis & _).
  assert (∀ p q, p ∈ visited ∪ {[Point.mk x y]} → q ∈ visited ∪ {[Point.mk x y]} →
                 comparable p q) as Hcmp'.
  { intros p q [Hp| ->%elem_of_singleton]%elem_of_union
               [Hq| ->%elem_of_singleton]%elem_of_union.
    - by apply Hcmp.
    - left. destruct (Hvis p Hp) as (_ & ? & ? & _). by split.
    - right. destruct (Hvis q Hq) as (_ & ? & ? & _). by split.
    - left. by split. }
  rewrite did_miss_points_S. cbv zeta.
  destruct (_ && _) eqn:Hguard; simpl negb; cbv iota; [|done].
  destruct (Grid._get_nearest g x y) as [nearest|] eqn:Hnear.
  - destruct (Nat.ltb_spec 0 (size (list_to_set (Grid.points g) ∖ (visited ∪ {[Point.mk x y]}))))
      as [Hdiffs|Hdiffs]; [|done].
    apply (IH (S k)); [by eapply walk_next|done].
  - destruct (Nat.ltb_spec 0 (size (list_to_set (Grid.points g) ∖ (visited ∪ {[Point.mk x y]}))))
      as [Hdiffs|Hdiffs]; [done|].
    intros _ p q Hp Hq.
    assert (∀ r, r ∈ Grid.points g → r ∈ visited ∪ {[Point.mk x y]}) as Hall.
    { intros r Hr. destruct (decide (r ∈ visited ∪ {[Point.mk x y]})) as [|Hv]; [done|].
      assert (0 < size (list_to_set (Grid.points g) ∖ (visited ∪ {[Point.mk x y]})));
        [|lia].
      apply diffs_pos. eauto. }
    apply Hcmp'; by apply Hall.
Qed.

Lemma is_possible_inv (fuel : nat) (b : bool) :
  Grid.is_possible fuel g = Some (Ok b) →
  ∃ visited, Grid._did_miss_points fuel g ∅ (Point.x (Grid.start g))
                                   (Point.y (Grid.start g))
             = Some (visited, Ok (negb b)).
Proof.
  unfold Grid.is_possible, Point.coords. 
  destruct (Grid._did_miss_points _ _ _ _ _) as [[visited [r|e]]|]; simpl; [|done..].
  intros [= <-]. exists visited. by rewrite negb_involutive.
Qed.

Lemma is_possible_chain (fuel : nat) :
  Grid.is_possible fuel g = Some (Ok true) →
  ∀ p q, p ∈ Grid.points g → q ∈ Grid.points g → comparable p q.
Proof.
  intros [visited Hrun]%is_possible_inv. eapply walk_call_chain; [constructor| |done].
  set_solver.
Qed.

(** In a valid layout the marker list advances: a later marker is reached
    from an earlier one. *)
Lemma is_possible_monotone (fuel i j : nat) (a b : Point.t) :
  Grid.is_possible fuel g = Some (Ok true) →
  i < j → Grid.points g !! i = Some a → Grid.points g !! j = Some b →
  reaches a b ∧ a ≠ b.
Proof.
  intros Hvalid Hij Ha Hb.
  pose proof (StronglySorted_lookup _ _ _ _ _ _ (init_points_sorted rows g Hinit) Hij Ha Hb)
    as Hlt.
  split; [|intros ->; by apply scan_lt_irrefl in Hlt].
  destruct (is_possible_chain fuel Hvalid a b) as [?|[? ?]];
    [by eapply list_elem_of_lookup_2..|done|].
  unfold scan_lt in Hlt. split; lia.
Qed.

(** Between two consecutive markers of a valid layout lies no third one. *)
Lemma is_possible_consecutive (fuel i : nat) (a b q : Point.t) :
  Grid.is_possible fuel g = Some (Ok true) →
  Grid.points g !! i = Some a → Grid.points g !! S i = Some b →
  q ∈ Grid.points g → reaches a q → reaches q b → q = a ∨ q = b.
Proof.
  intros Hvalid Ha Hb (m & Hq)%list_elem_of_lookup_1 Haq Hqb.
  destruct (decide (m ≤ i)) as [Hm|Hm].
  - left. destruct (decide (m = i)) as [->|]; [congruence|].
    destruct (is_possible_monotone fuel m i q a) as [? _]; [done|lia|done..|].
    by apply reaches_antisym.
  - right. destruct (decide (m = S i)) as [->|]; [congruence|].
    destruct (is_possible_monotone fuel (S i) m b q) as [? _]; [done|lia|done..|].
    by apply reaches_antisym.
Qed.

End chain.

(** ** Carving a subgrid *)

Lemma omap_all_None {A B} (f : A → option B) (l : list A) :
  (∀ a, a ∈ l → f a = None) → omap f l = [].
Proof.
  induction l as [|a l IH]; intros Hf; csimpl; [done|].
  rewrite Hf by left. apply IH. intros; apply Hf. by right.
Qed.

Lemma omap_all_Some {A B} (f : A → option B) (f' : A → B) (l : list A) :
  (∀ a, a ∈ l → f a = Some (f' a)) → omap f l = f' <$> l.
Proof.
  induction l as [|a l IH]; intros Hf; csimpl; [done|].
  rewrite Hf by left. f_equal. apply IH. intros; apply Hf. by right.
Qed.

(** The constructor accepts a non-empty list of rows of one width that holds
    a marker. *)
Lemma init_ok (rows : list str) (w : nat) :
  rows ≠ [] → Forall (λ r, length r = w) rows →
  Grid.scan rows w (length rows) ≠ [] →
  ∃ g, Grid.__init__ rows = Ok g ∧ Grid.points g = Grid.scan rows w (length rows).
Proof.
  intros Hne Hw Hscan. unfold Grid.__init__.
  destruct rows as [|r0 rest] eqn:Hrows; [done|]. rewrite <-Hrows in *.
  assert (length r0 = w) as ->.
  { rewrite Forall_forall in Hw. apply Hw. rewrite Hrows. left. }
  match goal with
  | |- context [negb ?c] => assert (c = true) as ->
  end.
  { apply forallb_forall. intros r Hr%list_elem_of_In. apply Nat.eqb_eq.
    rewrite Forall_forall in Hw. by apply Hw. }
  rewrite Nat.eqb_refl. simpl negb. cbv iota.
  destruct (Grid.scan rows w (length rows)) as [|p0 ps] eqn:E; [done|].
  eexists. split; [done|]. simpl. done.
Qed.

Section carve.
Variables (rows : list str) (w : nat).
Hypothesis Hw : Forall (λ r, length r = w) rows.
Variables (xa ya xb yb : nat).
Hypothesis Hx : xa ≤ xb < w.
Hypothesis Hy : yb ≤ ya < length rows.

Let a : Point.t := Point.mk (Z.of_nat xa) (Z.of_nat ya).
Let b : Point.t := Point.mk (Z.of_nat xb) (Z.of_nat yb).

Lemma carve_eq :
  Subgrid.carve rows a b =
  (λ y, take (S xb - xa) (drop xa (default [] (rows !! y)))) <$> seq yb (S ya - yb).
Proof.
  unfold Subgrid.carve.
  replace (length rows) with (yb + ((S ya - yb) + (length rows - S ya))) by lia.
  rewrite !seq_app, !omap_app.
  rewrite (omap_all_None _ (seq 0 yb)), (omap_all_None _ (seq (yb + _) _)).
  - rewrite app_nil_r. simpl app. apply omap_all_Some.
    intros y Hy'%elem_of_seq. subst a b; simpl.
    destruct (Z.leb_spec (Z.of_nat y) (Z.of_nat ya)); [|lia].
    destruct (Z.geb_spec (Z.of_nat y) (Z.of_nat yb)); [|lia].
    simpl. f_equal.
    replace (Z.of_nat xb + 1)%Z with (Z.of_nat (S xb)) by lia.
    apply slice_in_range; [lia|].
    destruct (lookup_lt_is_Some_2 rows y) as [r Hr]; [lia|]. rewrite Hr; simpl.
    rewrite Forall_forall in Hw. rewrite (Hw r) by by eapply list_elem_of_lookup_2. lia.
  - intros y Hy'%elem_of_seq. subst a b; simpl.
    destruct (Z.leb_spec (Z.of_nat y) (Z.of_nat ya)); [lia|done].
  - intros y Hy'%elem_of_seq. subst a b; simpl.
    destruct (Z.geb_spec (Z.of_nat y) (Z.of_nat yb)); [lia|].
    by rewrite andb_false_r.
Qed.

Lemma carve_length : length (Subgrid.carve rows a b) = S (ya - yb).
Proof. rewrite carve_eq, length_fmap, length_seq. lia. Qed.

Lemma carve_lookup (j : nat) :
  j ≤ ya - yb →
  ∃ r, rows !! (yb + j) = Some r ∧ length r = w
       ∧ Subgrid.carve rows a b !! j = Some (take (S xb - xa) (drop xa r)).
Proof.
  intros Hj. destruct (lookup_lt_is_Some_2 rows (yb + j)) as [r Hr]; [lia|].
  exists r. split; [done|]. split.
  - rewrite Forall_forall in Hw. apply Hw. by eapply list_elem_of_lookup_2.
  - rewrite carve_eq, list_lookup_fmap, lookup_seq_lt by lia. simpl. by rewrite Hr.
Qed.

Lemma carve_widths : Forall (λ r, length r = S (xb - xa)) (Subgrid.carve rows a b).
Proof.
  apply Forall_forall. intros r (j & Hj)%list_elem_of_lookup_1.
  pose proof (lookup_lt_Some _ _ _ Hj) as Hlt. rewrite carve_length in Hlt.
  destruct (carve_lookup j) as (r' & _ & Hlen & Hr'); [lia|].
  rewrite Hj in Hr'. injection Hr' as ->.
  rewrite length_take, length_drop. lia.
Qed.

(** A cell of the subgrid is the cell of the grid it was cut from. *)
Lemma carve_is_marker (i j : nat) :
  i ≤ xb - xa → j ≤ ya - yb →
  Grid.is_marker (Subgrid.carve rows a b) j i = Grid.is_marker rows (yb + j) (xa + i).
Proof.
  intros Hi Hj. unfold Grid.is_marker.
  destruct (carve_lookup j Hj) as (r & -> & _ & ->). simpl.
  by rewrite lookup_take_lt, lookup_drop by lia.
Qed.

Hypothesis Ha : Grid.is_marker rows ya xa = true.
Hypothesis Hb : Grid.is_marker rows yb xb = true.
Hypothesis Hab : a ≠ b.
Hypothesis Hexcl : ∀ i j,
  i ≤ xb - xa → j ≤ ya - yb → Grid.is_marker rows (yb + j) (xa + i) = true →
  (i = 0 ∧ j = ya - yb) ∨ (i = xb - xa ∧ j = 0).

Let a' : Point.t := Point.mk 0 (Z.of_nat (ya - yb)).
Let b' : Point.t := Point.mk (Z.of_nat (xb - xa)) 0.

Lemma carve_scan_elem (p : Point.t) :
  p ∈ Grid.scan (Subgrid.carve rows a b) (S (xb - xa)) (S (ya - yb)) ↔ p = a' ∨ p = b'.
Proof.
  rewrite elem_of_scan. split.
  - intros (i & j & Hj & Hi & Hm & ->).
    rewrite carve_is_marker in Hm by lia.
    destruct (Hexcl i j) as [[-> ->]|[-> ->]]; [lia..|done| |]; [by left|by right].
  - intros [->| ->].
    + exists 0, (ya - yb). split_and!; [lia..| |done].
      rewrite carve_is_marker by lia.
      by replace (yb + (ya - yb)) with ya by lia; replace (xa + 0) with xa by lia.
    + exists (xb - xa), 0. split_and!; [lia..| |done].
      rewrite carve_is_marker by lia.
      by replace (yb + 0) with yb by lia; replace (xa + (xb - xa)) with xb by lia.
Qed.

Lemma carve_scan :
  Grid.scan (Subgrid.carve rows a b) (S (xb - xa)) (S (ya - yb)) = [a'; b'].
Proof.
  assert (scan_lt a' b') as Hlt.
  { unfold scan_lt; simpl. destruct (decide (ya = yb)) as [->|]; [|lia].
    right. split; [lia|]. destruct (decide (xa = xb)) as [->|]; [|lia].
    by destruct Hab. }
  apply (StronglySorted_unique_strong scan_lt).
  - intros p q _ _ Hpq Hqp. unfold scan_lt in *. lia.
  - apply scan_sorted.
  - apply SSorted_cons; [apply SSorted_cons; constructor|].
    by apply Forall_singleton.
  - apply NoDup_Permutation.
    + eapply StronglySorted_NoDup; [apply scan_lt_irrefl|apply scan_sorted].
    + apply NoDup_cons. split; [|apply NoDup_singleton].
      intros Heq%list_elem_of_singleton. rewrite Heq in Hlt.
      by apply scan_lt_irrefl in Hlt.
    + intros p. by rewrite carve_scan_elem, elem_of_cons, list_elem_of_singleton.
Qed.

(** The subgrid between [a] and [b] is built, and its own marker list is the
    two corners. *)
Lemma from_points_corners :
  ∃ sub, Subgrid.from_points rows a b = Ok sub
         ∧ Grid.points sub = [a'; b']
         ∧ Grid.start sub = a' ∧ Grid.end_ sub = b'.
Proof.
  pose proof carve_scan as Hscan. rewrite <-carve_length in Hscan.
  destruct (init_ok (Subgrid.carve rows a b) (S (xb - xa))) as (sub & Hsub & Hpts).
  - intros Hnil. pose proof carve_length as Hlen. by rewrite Hnil in Hlen.
  - apply carve_widths.
  - by rewrite Hscan.
  - rewrite Hscan in Hpts. exists sub.
    destruct (init_inv _ _ Hsub) as (_ & _ & _ & _ & _ & _ & Hhd & Hlast).
    rewrite Hpts in Hhd, Hlast. simpl in Hhd, Hlast.
    unfold Subgrid.from_points, Subgrid.__init__. rewrite Hsub, Hpts. simpl.
    split_and!; [done..|congruence|congruence].
Qed.

End carve.

(** ** More fuel does not change a result *)

Lemma did_miss_points_mono (n n' : nat) (g : Grid.t) (visited : gset Point.t) (x y : Z) r :
  Grid._did_miss_points n g visited x y = Some r → n ≤ n' →
  Grid._did_miss_points n' g visited x y = Some r.
Proof.
  revert n' visited x y. induction n as [|n IH]; intros n' visited x y Hr Hn; [done|].
  destruct n' as [|n']; [lia|]. rewrite did_miss_points_S in *. cbv zeta in *.
  destruct (negb _); [done|].
  destruct (Grid._get_nearest g x y) as [nearest|]; [|done].
  destruct (0 <? _); [|done]. apply IH; [done|lia].
Qed.

Lemma is_possible_mono (n n' : nat) (g : Grid.t) r :
  Grid.is_possible n g = Some r → n ≤ n' → Grid.is_possible n' g = Some r.
Proof.
  unfold Grid.is_possible, Point.coords.
  destruct (Grid._did_miss_points n g _ _ _) as [r0|] eqn:E; [|done].
  intros Hr Hn. by rewrite (did_miss_points_mono _ _ _ _ _ _ _ E Hn).
Qed.

Lemma move_mono (n n' : nat) (sg : Subgrid.t) (x y : Z) (rp : Subgrid.loc)
    (h : Subgrid.heap) r :
  Subgrid._move n sg x y rp h = Some r → n ≤ n' →
  Subgrid._move n' sg x y rp h = Some r.
Proof.
  revert n' x y rp h r. induction n as [|n IH]; intros n' x y rp h r Hr Hn; [done|].
  destruct n' as [|n']; [lia|]. rewrite move_S in *.
  destruct (if bool_decide (Subgrid.deref h rp = []) then Subgrid.alloc h [] else (rp, h))
    as [rp' h0].
  cbv zeta in *. revert Hr. generalize (Subgrid.append h0 rp' (Point.mk x y)).
  clear h h0. intros h Hr.
  assert (∀ (c : bool) x' y' h0,
            (if c then Subgrid._move n sg x' y' rp' h0 else Some ([], h0)) = None
            ∨ (if c then Subgrid._move n' sg x' y' rp' h0 else Some ([], h0))
              = (if c then Subgrid._move n sg x' y' rp' h0 else Some ([], h0))) as Hstep.
  { intros [|] x' y' h0; [|by right].
    destruct (Subgrid._move n sg x' y' rp' h0) as [r'|] eqn:E; [right|by left].
    apply IH; [done|lia]. }
  destruct (Hstep (x <? Point.x (Grid.end_ sg))%Z (x + 1)%Z y h) as [E1|E1];
    [by rewrite E1 in Hr|rewrite E1].
  destruct (if (x <? _)%Z then _ else _) as [[p1 h1]|]; [|done]. simpl in *.
  destruct (Hstep (y >? Point.y (Grid.end_ sg))%Z x (y - 1)%Z h1) as [E2|E2];
    [by rewrite E2 in Hr|rewrite E2].
  destruct (if (y >? _)%Z then _ else _) as [[p2 h2]|]; [|done]. simpl in *.
  destruct (Hstep ((x <? Point.x (Grid.end_ sg))%Z && (y >? Point.y (Grid.end_ sg))%Z)
                  (x + 1)%Z (y - 1)%Z h2) as [E3|E3];
    [by rewrite E3 in Hr|rewrite E3].
  done.
Qed.

Lemma paths_mono (n n' : nat) (sg : Subgrid.t) ps :
  Subgrid.paths n sg = Some ps → n ≤ n' → Subgrid.paths n' sg = Some ps.
Proof.
  unfold Subgrid.paths. simpl.
  destruct (Subgrid._move n sg _ _ _ _) as [r|] eqn:E; [|done].
  intros Hr Hn. by rewrite (move_mono _ _ _ _ _ _ _ _ E Hn).
Qed.

Lemma paths_count_loop_mono (n n' : nat) (g : Grid.t) (i : nat) (rest : list Point.t)
    (paths : Z) r :
  paths_count_loop n g i rest paths = Some r → n ≤ n' →
  paths_count_loop n' g i rest paths = Some r.
Proof.
  intros Hr Hn. revert i paths Hr.
  induction rest as [|p rest IH]; intros i paths Hr; [done|]. simpl in *.
  destruct (Grid.points g !! i) as [last_p|]; [|done].
  destruct (Subgrid.from_points _ _ _) as [sub|]; [|done].
  destruct (Subgrid.paths n sub) as [ps|] eqn:E; [|done].
  rewrite (paths_mono _ _ _ _ E Hn). simpl in *. by apply IH.
Qed.

Lemma paths_count_mono (n n' : nat) (g : Grid.t) r :
  paths_count n g = Some r → n ≤ n' → paths_count n' g = Some r.
Proof.
  unfold paths_count. intros Hr Hn.
  destruct (length (Grid.points g) <=? 0); [done|].
  destruct (length (Grid.points g) =? 1); [done|].
  destruct (Grid.is_possible n g) as [r0|] eqn:E; [|done].
  rewrite (is_possible_mono _ _ _ _ E Hn). destruct r0 as [[|]|]; [|done..].
  destruct (paths_count_loop n g _ _ _) as [r1|] eqn:E1; [|done].
  by rewrite (paths_count_loop_mono _ _ _ _ _ _ _ E1 Hn).
Qed.

Lemma main_mono (n n' : nat) (rows : list str) r :
  main n rows = Some r → n ≤ n' → main n' rows = Some r.
Proof.
  unfold main. intros Hr Hn. destruct (Grid.__init__ rows) as [g|]; [|done].
  destruct (Grid.is_possible n g) as [r0|] eqn:E; [|done].
  rewrite (is_possible_mono _ _ _ _ E Hn). destruct r0 as [[|]|]; [|done..].
  destruct (paths_count n g) as [r1|] eqn:E1; [|done].
  by rewrite (paths_count_mono _ _ _ _ E1 Hn).
Qed.

(** ** Counting the paths of a valid layout *)

Section count.
Variables (rows : list str) (g : Grid.t).
Hypothesis Hinit : Grid.__init__ rows = Ok g.

(** A grid with a single marker passes the walk at its first call. *)
Lemma single_marker_possible (fuel : nat) :
  length (Grid.points g) = 1 → Grid.is_possible (S fuel) g = Some (Ok true).
Proof.
  intros Hlen. pose proof (init_start_elem rows g Hinit) as Hstart.
  assert (∀ p, p ∈ Grid.points g → p = Grid.start g) as Honly.
  { destruct (Grid.points g) as [|p0 [|? ?]]; simplify_eq/=.
    apply list_elem_of_singleton in Hstart as ->.
    by intros p ->%list_elem_of_singleton. }
  unfold Grid.is_possible, Point.coords. rewrite did_miss_points_S. cbv zeta.
  rewrite point_eta.
  assert (Grid._nothing_before g (∅ ∪ {[Grid.start g]}) (Point.x (Grid.start g))
            (Point.y (Grid.start g)) = true) as ->.
  { apply nothing_before_spec. intros p ->%Honly. set_solver. }
  rewrite (mutually_exclusive_at_marker rows g Hinit) by by rewrite point_eta.
  simpl negb. cbv iota.
  destruct (Grid._get_nearest g _ _) as [p|] eqn:Hnear.
  { apply get_nearest_Some in Hnear as [->%Honly (_ & _ & Hne)%valid_point_spec].
    by rewrite point_eta in Hne. }
  destruct (Nat.ltb_spec 0 (size (list_to_set (Grid.points g) ∖ (∅ ∪ {[Grid.start g]})
                                  : gset Point.t)))
    as [(p & ->%Honly & Hp)%diffs_pos|_]; [set_solver|done].
Qed.

Section valid.
Variable fuel0 : nat.
Hypothesis Hvalid : Grid.is_possible fuel0 g = Some (Ok true).

(** The subgrid between two consecutive markers has these two as its only
    markers, at its bottom-left and top-right corners. *)
Lemma consecutive_subgrid (i : nat) (a b : Point.t) :
  Grid.points g !! i = Some a → Grid.points g !! S i = Some b →
  ∃ sub, Subgrid.from_points (Grid.grid g) a b = Ok sub
         ∧ Grid.points sub = [Point.mk 0 (Point.y a - Point.y b);
                              Point.mk (Point.x b - Point.x a) 0]
         ∧ Grid.start sub = Point.mk 0 (Point.y a - Point.y b)
         ∧ Grid.end_ sub = Point.mk (Point.x b - Point.x a) 0
         ∧ (0 ≤ Point.x b - Point.x a < Z.of_nat (row_width rows))%Z
         ∧ (0 ≤ Point.y a - Point.y b < Z.of_nat (length rows))%Z.
Proof.
  intros Ha Hb.
  destruct (is_possible_monotone rows g Hinit fuel0 i (S i) a b) as [[Hx Hy] Hne];
    [done|lia|done..|].
  pose proof (list_elem_of_lookup_2 _ _ _ Ha) as Hina.
  pose proof (list_elem_of_lookup_2 _ _ _ Hb) as Hinb.
  pose proof Hina as (xa & ya & Hya & Hxa & Hma & Ea)%(init_points_elem rows g Hinit).
  pose proof Hinb as (xb & yb & Hyb & Hxb & Hmb & Eb)%(init_points_elem rows g Hinit).
  destruct (init_inv rows g Hinit) as (_ & Hw & -> & _).
  subst a b; simpl in *.
  destruct (from_points_corners rows (row_width rows) Hw xa ya xb yb)
    as (sub & Hsub & Hpts & Hs & He); [lia|lia|done|done|done| |].
  - intros i' j' Hi' Hj' Hm.
    destruct (is_possible_consecutive rows g Hinit fuel0 i _ _
                (Point.mk (Z.of_nat (xa + i')) (Z.of_nat (yb + j'))) Hvalid Ha Hb)
      as [[= ? ?]|[= ? ?]].
    + apply (init_points_elem rows g Hinit). exists (xa + i'), (yb + j').
      split_and!; [lia|lia|done..].
    + split; simpl; lia.
    + split; simpl; lia.
    + left. lia.
    + right. lia.
  - exists sub. rewrite Hpts, Hs, He.
    replace (Z.of_nat ya - Z.of_nat yb)%Z with (Z.of_nat (ya - yb)) by lia.
    replace (Z.of_nat xb - Z.of_nat xa)%Z with (Z.of_nat (xb - xa)) by lia.
    split_and!; [done..|lia|lia|lia|lia].
Qed.

(** The loop of [paths_count], resumed before its [i]-th round: it returns a
    positive product. *)
Lemma paths_count_loop_returns (fuel i : nat) (rest : list Point.t) (paths : Z) :
  length rows + row_width rows ≤ fuel →
  rest = drop (S i) (Grid.points g) → i < length (Grid.points g) → (1 ≤ paths)%Z →
  ∃ n, paths_count_loop fuel g i rest paths = Some (Ok n) ∧ (1 ≤ n)%Z.
Proof.
  intros Hfuel. revert i paths.
  induction rest as [|p rest IH]; intros i paths Hrest Hi Hpaths; simpl; [by eexists|].
  destruct (lookup_lt_is_Some_2 _ _ Hi) as [last_p Hlast]. rewrite Hlast.
  assert (Grid.points g !! S i = Some p) as Hp.
  { rewrite <-(Nat.add_0_r (S i)), <-lookup_drop, <-Hrest. done. }
  destruct (consecutive_subgrid i last_p p Hlast Hp)
    as (sub & -> & _ & Hs & He & Hdx & Hdy).
  destruct (paths_count_delannoy sub fuel) as (ps & -> & Hps).
  { rewrite Hs, He; simpl. lia. }
  { rewrite Hs, He; simpl. lia. }
  { rewrite Hs, He; simpl. lia. }
  simpl. apply IH.
  - erewrite drop_S in Hrest by done. by injection Hrest.
  - by apply lookup_lt_Some in Hp.
  - pose proof (delannoy_pos (Z.to_nat (Point.x (Grid.end_ sub) - Point.x (Grid.start sub)))
                  (Z.to_nat (Point.y (Grid.start sub) - Point.y (Grid.end_ sub)))).
    nia.
Qed.

(** Whatever the fuel, the loop raises nothing. *)
Lemma paths_count_loop_no_raise (fuel i : nat) (rest : list Point.t) (paths : Z) e :
  rest = drop (S i) (Grid.points g) → i < length (Grid.points g) →
  paths_count_loop fuel g i rest paths ≠ Some (Raise e).
Proof.
  revert i paths.
  induction rest as [|p rest IH]; intros i paths Hrest Hi; simpl; [done|].
  destruct (lookup_lt_is_Some_2 _ _ Hi) as [last_p Hlast]. rewrite Hlast.
  assert (Grid.points g !! S i = Some p) as Hp.
  { rewrite <-(Nat.add_0_r (S i)), <-lookup_drop, <-Hrest. done. }
  destruct (consecutive_subgrid i last_p p Hlast Hp) as (sub & -> & _).
  destruct (Subgrid.paths fuel sub) as [ps|]; simpl; [|done].
  apply IH.
  - erewrite drop_S in Hrest by done. by injection Hrest.
  - by apply lookup_lt_Some in Hp.
Qed.

End valid.

(** With enough fuel the walk returns a boolean. *)
Lemma is_possible_returns (fuel : nat) :
  length (Grid.points g) ≤ fuel → ∃ b, Grid.is_possible fuel g = Some (Ok b).
Proof.
  intros Hfuel. unfold Grid.is_possible, Point.coords.
  destruct (walk_call_returns rows g Hinit fuel 0 ∅ _ _ (walk_first g)) as [[v r] Hr];
    [lia|].
  rewrite Hr. destruct r as [b|e]; simpl; [by eexists|].
  by destruct (walk_call_no_raise rows g Hinit fuel 0 ∅ _ _ v e (walk_first g)).
Qed.

End count.

(** ** The scenario grids, run *)

Lemma staircase_run (g : Grid.t) :
  Grid.__init__ staircase = Ok g →
  Grid.is_possible 3 g = Some (Ok true)
  ∧ paths_count 3 g = Some (Ok (Some 9%Z))
  ∧ main 3 staircase = Some (Ok (PrintValue (Some 9%Z), 0%Z)).
Proof. intros [= <-]. by vm_compute. Qed.

Lemma main_diagonal_run (g : Grid.t) :
  Grid.__init__ main_diagonal = Ok g →
  Grid.is_possible 1 g = Some (Ok false)
  ∧ paths_count 1 g = Some (Ok None)
  ∧ main 1 main_diagonal = Some (Ok (PrintStr "<invalid input>", 1%Z)).
Proof. intros [= <-]. by vm_compute. Qed.

Lemma skipped_run (g : Grid.t) :
  Grid.__init__ skipped = Ok g →
  Grid.start g = Point.mk 0 1
  ∧ Grid._nothing_before g (∅ ∪ {[Point.mk 0 1]}) 0 1
    && Grid._mutually_exclusive_row_col g 0 1 = true
  ∧ Grid._get_nearest g 0 1 = Some (Point.mk 0 0)
  ∧ size (list_to_set (Grid.points g) ∖ (∅ ∪ {[Point.mk 0 1]}) : gset Point.t) = 2
  ∧ no_next_marker g (∅ ∪ {[Point.mk 0 1]} ∪ {[Point.mk 0 0]}) 0 0 = true
  ∧ some_unvisited g (∅ ∪ {[Point.mk 0 1]} ∪ {[Point.mk 0 0]}) = true
  ∧ Grid.is_possible 2 g = Some (Ok false).
Proof. intros [= <-]. by vm_compute. Qed.

Lemma skipped_second_call (g : Grid.t) :
  Grid.__init__ skipped = Ok g → walk_call g 1 (∅ ∪ {[Point.mk 0 1]}) 0 0.
Proof.
  intros Hg. destruct (skipped_run g Hg) as (Hs & Hguard & Hnear & Hdiffs & _).
  pose proof (walk_first g) as Hw. rewrite Hs in Hw. simpl in Hw.
  apply (walk_next g 0 ∅ 0 1 (Point.mk 0 0) Hw Hguard Hnear). rewrite Hdiffs. lia.
Qed.

(** ** Visited markers are never candidates again *)

Lemma visited_not_valid (rows : list str) (g : Grid.t) k visited x y p :
  Grid.__init__ rows = Ok g → walk_call g k visited x y →
  p ∈ visited → Grid.valid_point x y p = false.
Proof.
  intros Hinit (_ & Hvis & _)%(walk_call_inv rows g Hinit) Hp.
  destruct (Hvis p Hp) as (_ & ? & ? & Hne).
  destruct (Grid.valid_point x y p) eqn:Hv; [|done].
  apply valid_point_spec in Hv as (? & ? & _). destruct Hne.
  rewrite <-(point_eta p). f_equal; lia.
Qed.

Lemma all_visited_no_nearest (rows : list str) (g : Grid.t) k visited x y :
  Grid.__init__ rows = Ok g → walk_call g k visited x y →
  size (list_to_set (Grid.points g) ∖ (visited ∪ {[Point.mk x y]}) : gset Point.t) = 0 →
  Grid._get_nearest g x y = None.
Proof.
  intros Hinit Hw Hsize.
  destruct (Grid._get_nearest g x y) as [p|] eqn:Hnear; [exfalso|done].
  apply get_nearest_Some in Hnear as [Hin Hv].
  pose proof Hv as (_ & _ & Hne)%valid_point_spec.
  destruct (decide (p ∈ visited)) as [Hp|Hp].
  - by rewrite (visited_not_valid rows g k visited x y p) in Hv.
  - assert (0 < size (list_to_set (Grid.points g) ∖ (visited ∪ {[Point.mk x y]})
                      : gset Point.t)); [|lia].
    apply diffs_pos. exists p. split; [done|].
    by intros [?| ->%elem_of_singleton]%elem_of_union.
Qed.

(** * The claims *)

(** C1 (as the code has it). For the rows ["X.."; ".X."; "..X"] the scan
    starts at the marker (2, 2) of the last row; the marker (1, 1) lies to its
    left, so the first call of the walk reports a missed marker: the validity
    check answers false, [paths_count] is [None], and [main] prints
    "<invalid input>" with exit code 1. *)
Theorem main_diagonal_invalid (g : Grid.t) (fuel : nat) :
  Grid.__init__ main_diagonal = Ok g → 1 ≤ fuel →
  Grid.is_possible fuel g = Some (Ok false)
  ∧ paths_count fuel g = Some (Ok None)
  ∧ main fuel main_diagonal = Some (Ok (PrintStr "<invalid input>", 1%Z)).
Proof.
  intros Hg Hfuel. destruct (main_diagonal_run g Hg) as (H1 & H2 & H3).
  split_and!.
  - by apply (is_possible_mono 1).
  - by apply (paths_count_mono 1).
  - by apply (main_mono 1).
Qed.

Lemma main_diagonal_invalid_witness :
  ∃ g, Grid.__init__ main_diagonal = Ok g
       ∧ Grid.is_possible 1 g = Some (Ok false)
       ∧ paths_count 1 g = Some (Ok None)
       ∧ main 1 main_diagonal = Some (Ok (PrintStr "<invalid input>", 1%Z)).
Proof.
  eexists. split; [reflexivity|].
  exact (main_diagonal_invalid _ 1 eq_refl (le_n 1)).
Defined.

(** C1 as stated fails: on the rows ["X.."; ".X."; "..X"] no amount of fuel
    makes the validity check answer true, nor the path count 9. *)
Lemma main_diagonal_not_valid_9 :
  ¬ ∃ g fuel, Grid.__init__ main_diagonal = Ok g
              ∧ Grid.is_possible fuel g = Some (Ok true)
              ∧ paths_count fuel g = Some (Ok (Some 9%Z)).
Proof.
  intros (g & fuel & Hg & Hvalid & _).
  destruct (main_diagonal_run g Hg) as (H1 & _).
  destruct fuel as [|fuel]; [done|].
  rewrite (is_possible_mono 1 (S fuel) g _ H1) in Hvalid by lia. done.
Qed.

(** C2 (the code at the failing input). On the staircase ["..X"; ".X."; "X.."]
    the walk starts at (0, 2); with row 2 and column 0 taken out, markers are
    left both in the remaining rows and in the remaining columns, yet
    [_mutually_exclusive_row_col] answers true there and the grid is reported
    valid. *)
Theorem staircase_mix_accepted (g : Grid.t) (fuel : nat) :
  Grid.__init__ staircase = Ok g → 3 ≤ fuel →
  walk_call g 0 ∅ 0 2
  ∧ remaining_mix g 0 2 = true
  ∧ Grid._mutually_exclusive_row_col g 0 2 = true
  ∧ Grid.is_possible fuel g = Some (Ok true).
Proof.
  intros Hg Hfuel. destruct (staircase_run g Hg) as (H1 & _).
  split_and!.
  - injection Hg as <-. exact (walk_first _).
  - injection Hg as <-. by vm_compute.
  - injection Hg as <-. by vm_compute.
  - by apply (is_possible_mono 3).
Qed.

Lemma staircase_mix_accepted_witness :
  ∃ g, Grid.__init__ staircase = Ok g
       ∧ remaining_mix g 0 2 = true
       ∧ Grid.is_possible 3 g = Some (Ok true).
Proof.
  eexists. split; [reflexivity|].
  pose proof (staircase_mix_accepted _ 3 eq_refl (le_n 3)) as (_ & Hmix & _ & Hvalid).
  exact (conj Hmix Hvalid).
Defined.

(** C3 (as the code has it). When a call of the walk has no unvisited marker
    to move to although some marker is still unvisited, that marker lies to
    the left of or below the current one, so the call fails its no-skip check
    and returns True: the walk ends there with the normal "invalid" answer,
    [is_possible] is false, and nothing is raised. *)
Theorem no_next_marker_is_invalid (g : Grid.t) k visited x y fuel :
  walk_call g k visited x y →
  no_next_marker g (visited ∪ {[Point.mk x y]}) x y = true →
  some_unvisited g (visited ∪ {[Point.mk x y]}) = true →
  k < fuel →
  Grid._did_miss_points fuel g ∅ (Point.x (Grid.start g)) (Point.y (Grid.start g))
  = Some (visited ∪ {[Point.mk x y]}, Ok true)
  ∧ Grid.is_possible fuel g = Some (Ok false).
Proof.
  intros Hw Hnone Hsome Hfuel.
  assert (Grid._did_miss_points fuel g ∅ (Point.x (Grid.start g)) (Point.y (Grid.start g))
          = Some (visited ∪ {[Point.mk x y]}, Ok true)) as Hrun.
  { replace fuel with (k + S (fuel - S k)) by lia.
    rewrite (walk_call_run g k visited x y _ Hw), did_miss_points_S. cbv zeta.
    assert (Grid._nothing_before g (visited ∪ {[Point.mk x y]}) x y = false) as ->; [|done].
    apply not_true_is_false. rewrite nothing_before_spec. intros Hbefore.
    apply existsb_exists in Hsome as (p & Hp%list_elem_of_In & Hv%bool_decide_eq_true).
    unfold no_next_marker in Hnone. rewrite forallb_forall in Hnone.
    specialize (Hnone p). rewrite <-list_elem_of_In in Hnone. specialize (Hnone Hp).
    rewrite bool_decide_eq_true_2 in Hnone by done. simpl in Hnone.
    apply negb_true_iff in Hnone.
    destruct (Hbefore p Hp Hv) as [? ?].
    assert (Grid.valid_point x y p = true) as Hvalid; [|congruence].
    apply valid_point_spec. split_and!; [done..|].
    intros ->. apply Hv, elem_of_union_r, elem_of_singleton. done. }
  split; [done|]. unfold Grid.is_possible, Point.coords. by rewrite Hrun.
Qed.

Lemma no_next_marker_is_invalid_witness :
  ∃ g, Grid.__init__ skipped = Ok g ∧ Grid.is_possible 2 g = Some (Ok false).
Proof.
  eexists. split; [reflexivity|].
  refine (proj2 (no_next_marker_is_invalid _ 1 (∅ ∪ {[Point.mk 0 1]}) 0 0 2
                   (skipped_second_call _ eq_refl) _ _ (le_n 2))).
  - by vm_compute.
  - by vm_compute.
Defined.

(** C3 as stated fails: on the rows ["X.."; "X.X"; "..."] the second call of
    the walk, at (0, 0), has no unvisited marker to move to while the marker
    (2, 1) is unvisited, and the walk returns the "invalid" answer; it raises
    nothing, whatever the fuel. *)
Lemma skipped_returns_invalid :
  ∃ g, Grid.__init__ skipped = Ok g
       ∧ walk_call g 1 (∅ ∪ {[Point.mk 0 1]}) 0 0
       ∧ no_next_marker g (∅ ∪ {[Point.mk 0 1]} ∪ {[Point.mk 0 0]}) 0 0 = true
       ∧ some_unvisited g (∅ ∪ {[Point.mk 0 1]} ∪ {[Point.mk 0 0]}) = true
       ∧ Grid.is_possible 2 g = Some (Ok false)
       ∧ ∀ fuel e, Grid.is_possible fuel g ≠ Some (Raise e).
Proof.
  eexists. split; [reflexivity|].
  destruct (skipped_run _ eq_refl) as (_ & _ & _ & _ & Hnone & Hsome & Hrun).
  split_and!; [by apply skipped_second_call|done..|].
  intros fuel e. unfold Grid.is_possible, Point.coords.
  destruct (Grid._did_miss_points fuel _ _ _ _) as [[v [b|e']]|] eqn:E; simpl; [done| |done].
  by destruct (walk_call_no_raise skipped _ eq_refl fuel 0 ∅ _ _ v e' (walk_first _)).
Qed.

(** C4. In a subgrid with exactly two markers whose end marker lies [dx]
    columns to the right of and [dy] rows above its start marker
    ([dx, dy >= 0]), the enumeration returns, and the list of paths it returns
    has as many entries as the Delannoy number
    [D(dx, dy) = sum over k of C(dx, k) * C(dy, k) * 2^k]; for [dx = dy = 1]
    that is 3. *)
Theorem subgrid_paths_delannoy (rows : list str) (sg : Subgrid.t) (fuel : nat) :
  Subgrid.__init__ rows = Ok sg →
  let dx := (Point.x (Grid.end_ sg) - Point.x (Grid.start sg))%Z in
  let dy := (Point.y (Grid.start sg) - Point.y (Grid.end_ sg))%Z in
  (0 ≤ dx)%Z → (0 ≤ dy)%Z → Z.to_nat dx + Z.to_nat dy < fuel →
  ∃ ps, Subgrid.paths fuel sg = Some ps
        ∧ length ps = delannoy (Z.to_nat dx) (Z.to_nat dy)
        ∧ (dx = 1%Z → dy = 1%Z → length ps = 3).
Proof.
  intros _ dx dy Hdx Hdy Hfuel.
  destruct (paths_count_delannoy sg fuel Hdx Hdy Hfuel) as (ps & Hps & Hlen).
  exists ps. split_and!; [done..|].
  fold dx dy in Hlen. intros Hx Hy. by rewrite Hlen, Hx, Hy.
Qed.

Lemma subgrid_paths_delannoy_witness :
  ∃ ps, Subgrid.__init__ unit_square = Ok unit_square_subgrid
        ∧ Subgrid.paths 3 unit_square_subgrid = Some ps ∧ length ps = 3.
Proof.
  assert (Subgrid.__init__ unit_square = Ok unit_square_subgrid) as Hsg
    by (vm_compute; reflexivity).
  destruct (subgrid_paths_delannoy unit_square unit_square_subgrid 3 Hsg)
    as (ps & Hps & _ & Hlen).
  - by vm_compute.
  - by vm_compute.
  - vm_compute. constructor.
  - exists ps. split; [exact Hsg|]. split; [exact Hps|]. by apply Hlen.
Defined.

(** C5. A well-formed grid with exactly one marker is valid, and its path
    count is 1. *)
Theorem single_marker_valid_1 (rows : list str) (g : Grid.t) (fuel : nat) :
  Grid.__init__ rows = Ok g → length (Grid.points g) = 1 → 1 ≤ fuel →
  Grid.is_possible fuel g = Some (Ok true)
  ∧ paths_count fuel g = Some (Ok (Some 1%Z)).
Proof.
  intros Hinit Hlen Hfuel. split.
  - destruct fuel as [|fuel]; [lia|]. by apply (single_marker_possible rows).
  - unfold paths_count. by rewrite Hlen.
Qed.

Lemma single_marker_valid_1_witness :
  ∃ g, Grid.__init__ lone_marker = Ok g
       ∧ Grid.is_possible 1 g = Some (Ok true)
       ∧ paths_count 1 g = Some (Ok (Some 1%Z)).
Proof.
  eexists. split; [reflexivity|].
  exact (single_marker_valid_1 lone_marker _ 1 eq_refl eq_refl (le_n 1)).
Defined.

(** C6. For the rows ["..X"; ".X."; "X.."] the validity check answers true
    and the path count is 9: each of the two subgrids between consecutive
    markers has 3 paths. *)
Theorem staircase_valid_9 (g : Grid.t) (fuel : nat) :
  Grid.__init__ staircase = Ok g → 3 ≤ fuel →
  Grid.is_possible fuel g = Some (Ok true)
  ∧ paths_count fuel g = Some (Ok (Some 9%Z))
  ∧ main fuel staircase = Some (Ok (PrintValue (Some 9%Z), 0%Z))
  ∧ ∀ i a b, Grid.points g !! i = Some a → Grid.points g !! S i = Some b →
      ∃ sub ps, Subgrid.from_points (Grid.grid g) a b = Ok sub
                ∧ Subgrid.paths fuel sub = Some ps ∧ length ps = 3.
Proof.
  intros Hg Hfuel. destruct (staircase_run g Hg) as (H1 & H2 & H3).
  split_and!.
  - by apply (is_possible_mono 3).
  - by apply (paths_count_mono 3).
  - by apply (main_mono 3).
  - assert (∃ ps, Subgrid.paths fuel unit_square_subgrid = Some ps ∧ length ps = 3)
      as (ps & Hps & Hlen).
    { destruct (paths_count_delannoy unit_square_subgrid fuel) as (ps & Hps & Hlen);
        [by vm_compute|by vm_compute|vm_compute; lia|].
      exists ps. split; [done|exact Hlen]. }
    vm_compute in Hg. injection Hg as <-.
    intros [|[|i]] a b; simpl; [intros [= <-] [= <-]..|by intros _ ?];
      exists unit_square_subgrid, ps; (split; [by vm_compute|done]).
Qed.

Lemma staircase_valid_9_witness :
  ∃ g, Grid.__init__ staircase = Ok g
       ∧ Grid.is_possible 3 g = Some (Ok true)
       ∧ paths_count 3 g = Some (Ok (Some 9%Z)).
Proof.
  eexists. split; [reflexivity|].
  pose proof (staircase_valid_9 _ 3 eq_refl (le_n 3)) as (Hvalid & Hcount & _).
  exact (conj Hvalid Hcount).
Defined.

(** C7. In a grid that the validity check accepts, the subgrid carved between
    any two consecutive markers [points[i]], [points[i+1]] is built and holds
    exactly 2 markers, so the assertion of the [Subgrid] constructor does not
    fail; [paths_count] raises nothing. *)
Theorem consecutive_subgrids_two_markers (rows : list str) (g : Grid.t) (fuel : nat) :
  Grid.__init__ rows = Ok g →
  Grid.is_possible fuel g = Some (Ok true) →
  2 ≤ length (Grid.points g) →
  (∀ i a b, Grid.points g !! i = Some a → Grid.points g !! S i = Some b →
     ∃ sub, Subgrid.from_points (Grid.grid g) a b = Ok sub
            ∧ length (Grid.points sub) = 2)
  ∧ (∀ fuel' e, paths_count fuel' g ≠ Some (Raise e)).
Proof.
  intros Hinit Hvalid Hlen. split.
  - intros i a b Ha Hb.
    destruct (consecutive_subgrid rows g Hinit fuel Hvalid i a b Ha Hb)
      as (sub & Hsub & Hpts & _).
    exists sub. by rewrite Hpts.
  - intros fuel' e. unfold paths_count.
    destruct (Nat.leb_spec (length (Grid.points g)) 0); [done|].
    destruct (Nat.eqb_spec (length (Grid.points g)) 1) as [|_]; [done|].
    destruct (Grid.is_possible fuel' g) as [r|] eqn:Hr; [|done].
    assert (r = Ok true) as ->.
    { apply (is_possible_mono _ (Nat.max fuel fuel')) in Hr; [|lia].
      apply (is_possible_mono _ (Nat.max fuel fuel')) in Hvalid; [|lia]. congruence. }
    rewrite slice_from_1.
    destruct (paths_count_loop fuel' g 0 (drop 1 (Grid.points g)) 1) as [[m|e']|] eqn:E;
      simpl; [done| |done].
    destruct (paths_count_loop_no_raise rows g Hinit fuel Hvalid fuel' 0
                (drop 1 (Grid.points g)) 1%Z e'); [done|lia|done].
Qed.

Lemma consecutive_subgrids_two_markers_witness :
  ∃ g, Grid.__init__ staircase = Ok g
       ∧ ∀ i a b, Grid.points g !! i = Some a → Grid.points g !! S i = Some b →
           ∃ sub, Subgrid.from_points (Grid.grid g) a b = Ok sub
                  ∧ length (Grid.points sub) = 2.
Proof.
  eexists. split; [reflexivity|].
  refine (proj1 (consecutive_subgrids_two_markers staircase _ 3 eq_refl _ _)).
  - by vm_compute.
  - vm_compute. repeat constructor.
Defined.

(** C8. For a well-formed grid with at least one marker, given fuel for the
    markers, the rows and the columns, the computation returns and raises
    nothing: either the layout is valid, [paths_count] is an integer [n >= 1]
    and [main] prints it with exit code 0, or the layout is invalid,
    [paths_count] is [None] and [main] prints "<invalid input>" with exit
    code 1. *)
Theorem end_to_end_result (rows : list str) (g : Grid.t) (fuel : nat) :
  Grid.__init__ rows = Ok g →
  length (Grid.points g) + length rows + row_width rows ≤ fuel →
  (Grid.is_possible fuel g = Some (Ok true)
   ∧ ∃ n, (1 ≤ n)%Z
          ∧ paths_count fuel g = Some (Ok (Some n))
          ∧ main fuel rows = Some (Ok (PrintValue (Some n), 0%Z)))
  ∨ (Grid.is_possible fuel g = Some (Ok false)
     ∧ paths_count fuel g = Some (Ok None)
     ∧ main fuel rows = Some (Ok (PrintStr "<invalid input>", 1%Z))).
Proof.
  intros Hinit Hfuel.
  pose proof (init_points_length rows g Hinit) as Hpos.
  destruct (is_possible_returns rows g Hinit fuel) as [[|] Hvalid]; [lia| |].
  - left. split; [done|].
    assert (∃ n, (1 ≤ n)%Z ∧ paths_count fuel g = Some (Ok (Some n))) as (n & Hn & Hcount).
    { unfold paths_count.
      destruct (Nat.leb_spec (length (Grid.points g)) 0); [lia|].
      destruct (Nat.eqb_spec (length (Grid.points g)) 1) as [|_]; [by exists 1%Z|].
      rewrite Hvalid, slice_from_1.
      destruct (paths_count_loop_returns rows g Hinit fuel Hvalid fuel 0
                  (drop 1 (Grid.points g)) 1%Z) as (n & -> & Hn); [lia|done|lia|lia|].
      by exists n. }
    exists n. split_and!; [done..|]. unfold main. by rewrite Hinit, Hvalid, Hcount.
  - right. split; [done|].
    assert (length (Grid.points g) ≠ 1) as Hne.
    { intros Hone. destruct fuel as [|fuel']; [lia|].
      rewrite (single_marker_possible rows g Hinit fuel' Hone) in Hvalid. done. }
    split.
    + unfold paths_count.
      destruct (Nat.leb_spec (length (Grid.points g)) 0); [lia|].
      destruct (Nat.eqb_spec (length (Grid.points g)) 1); [done|].
      by rewrite Hvalid.
    + unfold main. by rewrite Hinit, Hvalid.
Qed.

Lemma end_to_end_result_witness :
  ∃ g, Grid.__init__ skipped = Ok g
       ∧ ((Grid.is_possible 9 g = Some (Ok true)
           ∧ ∃ n, (1 ≤ n)%Z
                  ∧ paths_count 9 g = Some (Ok (Some n))
                  ∧ main 9 skipped = Some (Ok (PrintValue (Some n), 0%Z)))
          ∨ (Grid.is_possible 9 g = Some (Ok false)
             ∧ paths_count 9 g = Some (Ok None)
             ∧ main 9 skipped = Some (Ok (PrintStr "<invalid input>", 1%Z)))).
Proof.
  eexists. split; [reflexivity|].
  refine (end_to_end_result skipped _ 9 eq_refl _).
  vm_compute. repeat constructor.
Defined.

(** C9. For a well-formed grid with at least one marker the walk returns with
    as much fuel as there are markers, so it is at most that many calls deep;
    every call of the walk is at a marker that has not been visited; and the
    marker [_get_nearest] hands to the next call is a marker [p] with
    [p.x >= x], [p.y <= y] and [p <> (x, y)]. *)
Theorem validity_walk_terminates (rows : list str) (g : Grid.t) :
  Grid.__init__ rows = Ok g →
  (∀ fuel, length (Grid.points g) ≤ fuel →
     is_Some (Grid._did_miss_points fuel g ∅ (Point.x (Grid.start g))
                                    (Point.y (Grid.start g)))
     ∧ is_Some (Grid.is_possible fuel g))
  ∧ (∀ k visited x y, walk_call g k visited x y →
       k < length (Grid.points g)
       ∧ Point.mk x y ∈ Grid.points g ∧ Point.mk x y ∉ visited)
  ∧ (∀ x y p, Grid._get_nearest g x y = Some p →
       p ∈ Grid.points g
       ∧ (x ≤ Point.x p)%Z ∧ (Point.y p ≤ y)%Z ∧ p ≠ Point.mk x y).
Proof.
  intros Hinit. split_and!.
  - intros fuel Hfuel.
    destruct (walk_call_returns rows g Hinit fuel 0 ∅ _ _ (walk_first g)) as [r Hr];
      [lia|].
    split; [by exists r|]. unfold Grid.is_possible, Point.coords. rewrite Hr. by eexists.
  - intros k visited x y Hw. split_and!.
    + by eapply walk_call_depth.
    + by destruct (walk_call_inv rows g Hinit _ _ _ _ Hw).
    + by eapply walk_call_fresh.
  - intros x y p [Hp Hv%valid_point_spec]%get_nearest_Some. done.
Qed.

Lemma validity_walk_terminates_witness :
  ∃ g, Grid.__init__ staircase = Ok g
       ∧ is_Some (Grid.is_possible 3 g).
Proof.
  eexists. split; [reflexivity|].
  refine (proj2 (proj1 (validity_walk_terminates staircase _ eq_refl) 3 _)).
  vm_compute. repeat constructor.
Defined.

(** C10. For a well-formed grid with at least one marker the walk never
    raises its "error in my logic" exception: at every call the markers
    already visited fail the test of [_get_nearest], so once every marker is
    visited [_get_nearest] returns None. *)
Theorem validity_walk_never_raises (rows : list str) (g : Grid.t) :
  Grid.__init__ rows = Ok g →
  (∀ fuel visited e,
     Grid._did_miss_points fuel g ∅ (Point.x (Grid.start g)) (Point.y (Grid.start g))
     ≠ Some (visited, Raise e))
  ∧ (∀ fuel e, Grid.is_possible fuel g ≠ Some (Raise e))
  ∧ (∀ k visited x y, walk_call g k visited x y →
       (∀ p, p ∈ visited → Grid.valid_point x y p = false)
       ∧ (size (list_to_set (Grid.points g) ∖ (visited ∪ {[Point.mk x y]})
                : gset Point.t) = 0 →
          Grid._get_nearest g x y = None)).
Proof.
  intros Hinit.
  assert (∀ fuel visited e,
            Grid._did_miss_points fuel g ∅ (Point.x (Grid.start g))
                                  (Point.y (Grid.start g))
            ≠ Some (visited, Raise e)) as Hrun.
  { intros fuel visited e. by eapply walk_call_no_raise; [|constructor]. }
  split_and!; [done| |].
  - intros fuel e. unfold Grid.is_possible, Point.coords.
    destruct (Grid._did_miss_points fuel _ _ _ _) as [[v [b|e']]|] eqn:E; simpl;
      [done| |done].
    by destruct (Hrun fuel v e').
  - intros k visited x y Hw. split.
    + intros p Hp. by eapply visited_not_valid.
    + by eapply all_visited_no_nearest.
Qed.

Lemma validity_walk_never_raises_witness :
  ∃ g, Grid.__init__ staircase = Ok g
       ∧ ∀ fuel e, Grid.is_possible fuel g ≠ Some (Raise e).
Proof.
  eexists. split; [reflexivity|].
  exact (proj1 (proj2 (validity_walk_never_raises staircase _ eq_refl))).
Defined.

(** * Further properties of the code *)

Example from_stream_example :
  main_stdin 3 (py_str "3,3" :: (with_newline <$> staircase))
  = Some (Exit (PrintValue (Some 9%Z)) 0%Z)
  ∧ split ","%char (py_str "3,3,") = [py_str "3"; py_str "3"; []]
  ∧ strip (py_str "  .X. ") = py_str ".X.".
Proof. by vm_compute. Qed.

(** ** The constructor *)

Lemma is_marker_spec (rows : list str) (y x : nat) :
  Grid.is_marker rows y x = true ↔ ∃ r, rows !! y = Some r ∧ r !! x = Some marker.
Proof.
  unfold Grid.is_marker. rewrite bool_decide_eq_true. split.
  - intros (r & Hr & Hx)%bind_Some. by exists r.
  - intros (r & Hr & Hx). apply bind_Some. by exists r.
Qed.

(** With rows of one width, the scan is empty exactly when no row holds a
    marker. *)
Lemma scan_nil_iff (rows : list str) (w : nat) :
  Forall (λ r, length r = w) rows →
  Grid.scan rows w (length rows) = [] ↔ ∀ r, r ∈ rows → marker ∉ r.
Proof.
  intros Hw. rewrite Forall_forall in Hw. split.
  - intros Hnil r (y & Hy)%list_elem_of_lookup_1 (x & Hx)%list_elem_of_lookup_1.
    assert (Point.mk (Z.of_nat x) (Z.of_nat y) ∈ Grid.scan rows w (length rows)) as Hin.
    { apply elem_of_scan. exists x, y. split_and!; [|..|done].
      - by apply lookup_lt_Some in Hy.
      - rewrite <-(Hw r) by by eapply list_elem_of_lookup_2. by apply lookup_lt_Some in Hx.
      - apply is_marker_spec. by exists r. }
    rewrite Hnil in Hin. by apply elem_of_nil in Hin.
  - intros Hno. destruct (Grid.scan rows w (length rows)) as [|p ps] eqn:E; [done|].
    assert (p ∈ Grid.scan rows w (length rows)) as Hin by (rewrite E; left).
    apply elem_of_scan in Hin as (x & y & _ & _ & (r & Hr & Hx)%is_marker_spec & _).
    destruct (Hno r); by eapply list_elem_of_lookup_2.
Qed.

(** X1. The constructor has four outcomes, told apart by the rows alone: no
    row at all is an IndexError; a row whose length differs from that of the
    first row is an AssertionError; rows of one width without any marker are
    the RuntimeError "Unable to find starting coord from grid."; any other
    list of rows is accepted. *)
Theorem init_outcome (rows : list str) :
  (rows = [] ∧ Grid.__init__ rows = Raise IndexError)
  ∨ (rows ≠ []
     ∧ (∃ r, r ∈ rows ∧ length r ≠ row_width rows)
     ∧ Grid.__init__ rows = Raise AssertionError)
  ∨ (rows ≠ []
     ∧ Forall (λ r, length r = row_width rows) rows
     ∧ (∀ r, r ∈ rows → marker ∉ r)
     ∧ Grid.__init__ rows
       = Raise (RuntimeError "Unable to find starting coord from grid."))
  ∨ (rows ≠ []
     ∧ Forall (λ r, length r = row_width rows) rows
     ∧ (∃ r, r ∈ rows ∧ marker ∈ r)
     ∧ ∃ g, Grid.__init__ rows = Ok g).
Proof.
  destruct rows as [|r0 rest] eqn:Hrows; [by left|right]. rewrite <-Hrows.
  assert (rows ≠ []) as Hne by by rewrite Hrows.
  assert (row_width rows = length r0) as Hwidth by by rewrite Hrows.
  destruct (decide (Forall (λ r, length r = row_width rows) rows)) as [Hw|Hw].
  - right. pose proof (scan_nil_iff rows (row_width rows) Hw) as Hscan.
    destruct (Grid.scan rows (row_width rows) (length rows)) as [|p ps] eqn:E.
    + left. split_and!; [done|done|by apply Hscan|].
      unfold Grid.__init__. rewrite Hrows, <-Hrows, <-Hwidth.
      match goal with
      | |- context [negb ?c] => assert (c = true) as ->
      end.
      { apply forallb_forall. intros r Hr%list_elem_of_In. apply Nat.eqb_eq.
        rewrite Forall_forall in Hw. by apply Hw. }
      rewrite Nat.eqb_refl. simpl negb. cbv iota. by rewrite E.
    + right. split_and!; [done|done| |].
      * assert (p ∈ Grid.scan rows (row_width rows) (length rows)) as Hin
          by (rewrite E; left).
        apply elem_of_scan in Hin as (x & y & _ & _ & (r & Hr & Hx)%is_marker_spec & _).
        exists r. split; by eapply list_elem_of_lookup_2.
      * destruct (init_ok rows (row_width rows)) as (g & Hg & _); [done|done| |by exists g].
        by rewrite E.
  - left. split; [done|]. split.
    + apply not_Forall_Exists, Exists_exists in Hw as (r & Hr & Hlen); [|by intros; apply _].
      by exists r.
    + unfold Grid.__init__. rewrite Hrows, <-Hrows, <-Hwidth.
      match goal with
      | |- context [negb ?c] => assert (c = false) as ->; [|done]
      end.
      apply not_true_is_false. intros Hall. apply Hw, Forall_forall.
      intros r Hr. rewrite forallb_forall in Hall. apply Nat.eqb_eq, Hall.
      by apply list_elem_of_In.
Qed.

(** X2. The marker list of an accepted grid holds exactly the cells that
    hold the marker character, each once, in the order of the scan: rows from
    the last to the first, columns from the first to the last. *)
Theorem points_are_the_markers (rows : list str) (g : Grid.t) :
  Grid.__init__ rows = Ok g →
  (∀ p, p ∈ Grid.points g ↔
        ∃ (x y : nat) r, p = Point.mk (Z.of_nat x) (Z.of_nat y)
                         ∧ rows !! y = Some r ∧ r !! x = Some marker)
  ∧ NoDup (Grid.points g)
  ∧ (∀ i j a b, i < j → Grid.points g !! i = Some a → Grid.points g !! j = Some b →
       (Point.y b < Point.y a)%Z
       ∨ (Point.y a = Point.y b ∧ Point.x a < Point.x b)%Z).
Proof.
  intros Hinit. split_and!.
  - intros p. rewrite (init_points_elem rows g Hinit). split.
    + intros (x & y & _ & _ & (r & Hr & Hx)%is_marker_spec & ->). by exists x, y, r.
    + intros (x & y & r & -> & Hr & Hx). exists x, y.
      destruct (init_inv rows g Hinit) as (_ & Hw & _). rewrite Forall_forall in Hw.
      split_and!; [| | |done].
      * by apply lookup_lt_Some in Hr.
      * rewrite <-(Hw r) by by eapply list_elem_of_lookup_2. by apply lookup_lt_Some in Hx.
      * apply is_marker_spec. by exists r.
  - by eapply init_points_NoDup.
  - intros i j a b Hij Ha Hb.
    exact (StronglySorted_lookup _ _ _ _ _ _ (init_points_sorted rows g Hinit) Hij Ha Hb).
Qed.

Lemma points_are_the_markers_witness :
  ∃ g, Grid.__init__ skipped = Ok g ∧ NoDup (Grid.points g).
Proof.
  eexists. split; [reflexivity|].
  exact (proj1 (proj2 (points_are_the_markers skipped _ eq_refl))).
Defined.

(** X3. [start] is the leftmost marker of the lowest row that holds a marker,
    and [end] is the rightmost marker of the highest such row. *)
Theorem start_and_end_are_extreme (rows : list str) (g : Grid.t) (p : Point.t) :
  Grid.__init__ rows = Ok g → p ∈ Grid.points g →
  Grid.start g ∈ Grid.points g ∧ Grid.end_ g ∈ Grid.points g
  ∧ (Point.y p ≤ Point.y (Grid.start g))%Z
  ∧ (Point.y p = Point.y (Grid.start g) → Point.x (Grid.start g) ≤ Point.x p)%Z
  ∧ (Point.y (Grid.end_ g) ≤ Point.y p)%Z
  ∧ (Point.y p = Point.y (Grid.end_ g) → Point.x p ≤ Point.x (Grid.end_ g))%Z.
Proof.
  intros Hinit (i & Hi)%list_elem_of_lookup_1.
  pose proof (init_points_sorted rows g Hinit) as Hsorted.
  destruct (init_inv rows g Hinit) as (_ & _ & _ & _ & _ & _ & Hhd & Hlast).
  rewrite head_lookup in Hhd. rewrite last_lookup in Hlast.
  pose proof (lookup_lt_Some _ _ _ Hi) as Hlt.
  assert (p = Grid.start g ∨ scan_lt (Grid.start g) p) as Hs.
  { destruct i as [|i]; [left; congruence|right].
    by apply (StronglySorted_lookup _ _ 0 (S i) _ _ Hsorted); [lia|..]. }
  assert (p = Grid.end_ g ∨ scan_lt p (Grid.end_ g)) as He.
  { destruct (decide (i = pred (length (Grid.points g)))) as [->|]; [left; congruence|right].
    by apply (StronglySorted_lookup _ _ i (pred (length (Grid.points g))) _ _ Hsorted);
      [lia|..]. }
  split; [by eapply list_elem_of_lookup_2|]. split; [by eapply list_elem_of_lookup_2|].
  split_and!.
  - destruct Hs as [Heq|Hs]; [rewrite Heq; lia|unfold scan_lt in Hs; lia].
  - destruct Hs as [Heq|Hs]; [rewrite Heq; lia|unfold scan_lt in Hs; lia].
  - destruct He as [Heq|He]; [rewrite Heq; lia|unfold scan_lt in He; lia].
  - destruct He as [Heq|He]; [rewrite Heq; lia|unfold scan_lt in He; lia].
Qed.

Lemma start_and_end_are_extreme_witness :
  ∃ g, Grid.__init__ skipped = Ok g
       ∧ (Point.y (Point.mk 2 1) ≤ Point.y (Grid.start g))%Z.
Proof.
  eexists. split; [reflexivity|].
  refine (proj1 (proj2 (proj2 (start_and_end_are_extreme skipped _ (Point.mk 2 1)
                                  eq_refl _)))).
  vm_compute. apply list_elem_of_In. simpl. tauto.
Defined.

(** X4. [cols] is the transpose of the rows: there are as many columns as the
    rows are wide, each as long as the grid is high, and the cell [y] of
    column [x] is the cell [x] of row [y]; one is out of range exactly when
    the other is. *)
Theorem cols_transpose_rows (rows : list str) (g : Grid.t) :
  Grid.__init__ rows = Ok g →
  Grid.rows g = rows
  ∧ length (Grid.cols g) = row_width rows
  ∧ Forall (λ c, length c = length rows) (Grid.cols g)
  ∧ ∀ x y : nat, Grid.cols g !! x ≫= (.!! y) = rows !! y ≫= (.!! x).
Proof.
  intros Hinit. destruct (init_inv rows g Hinit) as (_ & Hw & _ & Hr & Hcols & _).
  split; [done|]. split; [by rewrite Hcols, length_fmap, length_seq|].
  split; [apply Forall_forall; intros c Hc; by eapply init_cols_length|].
  intros x y. rewrite Hcols, list_lookup_fmap. rewrite Forall_forall in Hw.
  destruct (decide (x < row_width rows)) as [Hx|Hx].
  - rewrite lookup_seq_lt by done. simpl. unfold Grid.column.
    rewrite list_lookup_fmap. destruct (rows !! y) as [r|] eqn:Hy; simpl; [|done].
    destruct (lookup_lt_is_Some_2 r x) as [c Hc].
    { rewrite (Hw r); [done|]. by eapply list_elem_of_lookup_2. }
    by rewrite Hc.
  - rewrite lookup_seq_ge by lia. simpl.
    destruct (rows !! y) as [r|] eqn:Hy; simpl; [|done].
    symmetry. apply lookup_ge_None. rewrite (Hw r); [lia|].
    by eapply list_elem_of_lookup_2.
Qed.

Lemma cols_transpose_rows_witness :
  ∃ g, Grid.__init__ skipped = Ok g ∧ length (Grid.cols g) = row_width skipped.
Proof.
  eexists. split; [reflexivity|].
  exact (proj1 (proj2 (cols_transpose_rows skipped _ eq_refl))).
Defined.

(** ** The exclusivity test *)

Lemma slice_singleton_around {A} (a : A) (i : Z) :
  i ≠ 0%Z → a ∈ slice [a] None (Some i) ++ slice [a] (Some (i + 1)%Z) None.
Proof.
  intros Hi. unfold slice. simpl length. simpl from_option.
  destruct (decide (0 < i)%Z) as [Hpos|Hneg].
  - assert (clamp 1 i = 1) as ->.
    { unfold clamp. destruct (Z.ltb_spec i 0); lia. }
    simpl. left.
  - assert (clamp 1 i = 0) as ->.
    { unfold clamp. destruct (Z.ltb_spec i 0); lia. }
    assert (clamp 1 (i + 1) = 0) as ->.
    { unfold clamp. destruct (Z.ltb_spec (i + 1) 0); lia. }
    simpl. left.
Qed.

(** X5. On an accepted grid [_mutually_exclusive_row_col] answers False in
    one case only: the grid is the single row "X" and neither [x] nor [y] is
    0. At the coordinates of a marker it always answers True. *)
Theorem exclusivity_test_false_iff (rows : list str) (g : Grid.t) (x y : Z) :
  Grid.__init__ rows = Ok g →
  (Grid._mutually_exclusive_row_col g x y = false ↔ rows = [X] ∧ x ≠ 0%Z ∧ y ≠ 0%Z)
  ∧ (Point.mk x y ∈ Grid.points g → Grid._mutually_exclusive_row_col g x y = true).
Proof.
  intros Hinit. split; [|by apply (mutually_exclusive_at_marker rows)].
  destruct (init_inv rows g Hinit) as (_ & Hw & _ & Hrows & Hcols & _).
  unfold Grid._mutually_exclusive_row_col. rewrite Hrows.
  rewrite negb_false_iff, andb_true_iff, !bool_decide_eq_true. split.
  - intros [Hc Hr].
    assert (length rows = 1) as Hlen.
    { apply elem_of_app in Hc as [Hc|Hc];
        apply slice_elem, (init_cols_length rows g Hinit) in Hc; by rewrite <-Hc. }
    assert (rows = [X]) as ->.
    { assert (X ∈ rows) as Hin.
      { apply elem_of_app in Hr as [Hr|Hr]; by apply slice_elem in Hr. }
      destruct rows as [|r [|? ?]]; simplify_eq/=.
      by apply list_elem_of_singleton in Hin as ->. }
    split; [done|]. split; intros ->.
    + rewrite Hcols in Hc. by apply elem_of_nil in Hc.
    + by apply elem_of_nil in Hr.
  - intros (-> & Hx & Hy). rewrite Hcols. split.
    + by apply (slice_singleton_around X).
    + by apply slice_singleton_around.
Qed.

Lemma exclusivity_test_false_iff_witness :
  ∃ g, Grid.__init__ [X] = Ok g
       ∧ Grid._mutually_exclusive_row_col g 1 1 = false
       ∧ Grid._mutually_exclusive_row_col g 0 0 = true.
Proof.
  eexists. split; [reflexivity|].
  pose proof (exclusivity_test_false_iff [X] _ 1 1 eq_refl) as [Hfalse _].
  pose proof (exclusivity_test_false_iff [X] _ 0 0 eq_refl) as [_ Htrue].
  split.
  - apply Hfalse. split; [reflexivity|]. split; discriminate.
  - apply Htrue. vm_compute. left.
Defined.

(** ** The nearest marker *)







(** ** Chains are valid layouts *)

Lemma filter_all_false {A} (f : A → bool) (l : list A) :
  (∀ a, a ∈ l → f a = false) → List.filter f l = [].
Proof.
  induction l as [|a l IH]; intros Hf; simpl; [done|].
  rewrite Hf by left. apply IH. intros; apply Hf. by right.
Qed.

Lemma filter_all_true {A} (f : A → bool) (l : list A) :
  (∀ a, a ∈ l → f a = true) → List.filter f l = l.
Proof.
  induction l as [|a l IH]; intros Hf; simpl; [done|].
  rewrite Hf by left. f_equal. apply IH. intros; apply Hf. by right.
Qed.

Lemma fold_left_min_id (ds : list Z) (d : Z) :
  (∀ v, v ∈ ds → (d ≤ v)%Z) → fold_left Z.min ds d = d.
Proof.
  revert d. induction ds as [|a ds IH]; intros d Hd; simpl; [done|].
  rewrite Z.min_l by (apply Hd; left). apply IH. intros; apply Hd. by right.
Qed.

(** A marker further along a chain is further away. *)
Lemma dist2_reaches (a b q : Point.t) :
  reaches a b → reaches b q →
  (Grid.dist2 (Point.x a) (Point.y a) (Point.x b) (Point.y b)
   ≤ Grid.dist2 (Point.x a) (Point.y a) (Point.x q) (Point.y q))%Z.
Proof.
  unfold reaches, Grid.dist2. intros [? ?] [? ?]. rewrite !Z.pow_2_r. nia.
Qed.

Section chain_valid.
Variables (rows : list str) (g : Grid.t).
Hypothesis Hinit : Grid.__init__ rows = Ok g.
Hypothesis Hchain : ∀ p q, p ∈ Grid.points g → q ∈ Grid.points g → comparable p q.

Lemma chain_ordered (i j : nat) (a b : Point.t) :
  i < j → Grid.points g !! i = Some a → Grid.points g !! j = Some b →
  reaches a b ∧ a ≠ b.
Proof.
  intros Hij Ha Hb.
  pose proof (StronglySorted_lookup _ _ _ _ _ _ (init_points_sorted rows g Hinit) Hij Ha Hb)
    as Hlt.
  split; [|intros ->; by apply scan_lt_irrefl in Hlt].
  destruct (Hchain a b) as [?|[? ?]]; [by eapply list_elem_of_lookup_2..|done|].
  unfold scan_lt in Hlt. split; lia.
Qed.

(** Seen from the [k]-th marker, the candidates are the markers after it. *)
Lemma chain_candidates (k : nat) (a : Point.t) :
  Grid.points g !! k = Some a →
  List.filter (Grid.valid_point (Point.x a) (Point.y a)) (Grid.points g)
  = drop (S k) (Grid.points g).
Proof.
  intros Ha. rewrite <-(take_drop_middle _ _ _ Ha) at 1.
  rewrite List.filter_app. simpl.
  rewrite filter_all_false, filter_all_true.
  - destruct (Grid.valid_point _ _ a) eqn:Hv; [|done].
    apply valid_point_spec in Hv as (_ & _ & Hne). by rewrite point_eta in Hne.
  - intros q (j & Hq)%list_elem_of_lookup_1. rewrite lookup_drop in Hq.
    destruct (chain_ordered k (S k + j) a q) as [[? ?] Hne]; [lia|done..|].
    apply valid_point_spec. split_and!; [done..|]. by rewrite point_eta.
  - intros q (i & Hq)%list_elem_of_lookup_1.
    pose proof (lookup_lt_Some _ _ _ Hq) as Hi. rewrite length_take in Hi.
    rewrite lookup_take_lt in Hq by lia.
    destruct (chain_ordered i k q a) as [[? ?] Hne]; [lia|done..|].
    destruct (Grid.valid_point _ _ q) eqn:Hv; [|done].
    apply valid_point_spec in Hv as (? & ? & _). destruct Hne.
    rewrite <-(point_eta q), <-(point_eta a). f_equal; lia.
Qed.

Lemma chain_nearest_next (k : nat) (a b : Point.t) :
  Grid.points g !! k = Some a → Grid.points g !! S k = Some b →
  Grid._get_nearest g (Point.x a) (Point.y a) = Some b.
Proof.
  intros Ha Hb. unfold Grid._get_nearest.
  rewrite (chain_candidates k a Ha), (drop_S _ _ _ Hb). simpl.
  rewrite fold_left_min_id, Z.eqb_refl; [done|].
  intros v (q & -> & (j & Hq)%list_elem_of_lookup_1)%list_elem_of_fmap.
  rewrite lookup_drop in Hq.
  destruct (chain_ordered k (S k) a b) as [? _]; [lia|done..|].
  destruct (chain_ordered (S k) (S (S k) + j) b q) as [? _]; [lia|done..|].
  by apply dist2_reaches.
Qed.

Lemma chain_nearest_last (k : nat) (a : Point.t) :
  Grid.points g !! k = Some a → S k = length (Grid.points g) →
  Grid._get_nearest g (Point.x a) (Point.y a) = None.
Proof.
  intros Ha Hk. unfold Grid._get_nearest.
  rewrite (chain_candidates k a Ha), drop_ge by lia. done.
Qed.

Lemma chain_visited_S (k : nat) (a : Point.t) :
  Grid.points g !! k = Some a →
  (list_to_set (take (S k) (Grid.points g)) : gset Point.t)
  = list_to_set (take k (Grid.points g)) ∪ {[Point.mk (Point.x a) (Point.y a)]}.
Proof.
  intros Ha. rewrite point_eta, (take_S_r _ _ _ Ha), list_to_set_app_L. simpl.
  by rewrite union_empty_r_L.
Qed.

Lemma chain_unvisited (k : nat) (a p : Point.t) :
  Grid.points g !! k = Some a → p ∈ Grid.points g →
  p ∉ (list_to_set (take (S k) (Grid.points g)) : gset Point.t) →
  ∃ j, k < j ∧ Grid.points g !! j = Some p.
Proof.
  intros Ha (j & Hj)%list_elem_of_lookup_1 Hp. exists j. split; [|done].
  destruct (decide (k < j)) as [|Hle]; [done|]. destruct Hp.
  apply elem_of_list_to_set, list_elem_of_lookup. exists j.
  by rewrite lookup_take_lt by lia.
Qed.

Lemma chain_guard (k : nat) (a : Point.t) :
  Grid.points g !! k = Some a →
  Grid._nothing_before g (list_to_set (take (S k) (Grid.points g)))
                       (Point.x a) (Point.y a)
  && Grid._mutually_exclusive_row_col g (Point.x a) (Point.y a) = true.
Proof.
  intros Ha. apply andb_true_iff. split.
  - apply nothing_before_spec. intros p Hp Hv.
    destruct (chain_unvisited k a p Ha Hp Hv) as (j & Hj & Hpj).
    by destruct (chain_ordered k j a p) as [[? ?] _].
  - apply (mutually_exclusive_at_marker rows g Hinit). rewrite point_eta.
    by eapply list_elem_of_lookup_2.
Qed.

(** The [k]-th call of the walk is at the [k]-th marker of the list, after
    the markers before it have been visited. *)
Lemma chain_walk (k : nat) (a : Point.t) :
  Grid.points g !! k = Some a →
  walk_call g k (list_to_set (take k (Grid.points g))) (Point.x a) (Point.y a).
Proof.
  revert a. induction k as [|k IH]; intros a Ha.
  - pose proof (init_inv rows g Hinit) as (_ & _ & _ & _ & _ & _ & Hhd & _).
    rewrite head_lookup, Ha in Hhd. injection Hhd as ->. apply walk_first.
  - destruct (lookup_lt_is_Some_2 (Grid.points g) k) as [a0 Ha0].
    { apply lookup_lt_Some in Ha. lia. }
    rewrite (chain_visited_S k a0 Ha0).
    apply walk_next; [by apply IH| | |].
    + rewrite <-(chain_visited_S k a0 Ha0). by apply chain_guard.
    + by apply (chain_nearest_next k).
    + rewrite <-(chain_visited_S k a0 Ha0). apply diffs_pos. exists a.
      split; [by eapply list_elem_of_lookup_2|].
      intros (i & Hi)%elem_of_list_to_set%list_elem_of_lookup_1.
      pose proof (lookup_lt_Some _ _ _ Hi) as Hlt. rewrite length_take in Hlt.
      rewrite lookup_take_lt in Hi by lia.
      pose proof (NoDup_lookup _ _ _ _ (init_points_NoDup rows g Hinit) Hi Ha). lia.
Qed.

(** The walk over a chain visits every marker and misses none. *)
Lemma chain_run (fuel : nat) :
  length (Grid.points g) ≤ fuel →
  Grid._did_miss_points fuel g ∅ (Point.x (Grid.start g)) (Point.y (Grid.start g))
  = Some (list_to_set (Grid.points g), Ok false).
Proof.
  intros Hfuel. pose proof (init_points_length rows g Hinit) as Hpos.
  destruct (lookup_lt_is_Some_2 (Grid.points g) (pred (length (Grid.points g))))
    as [a Ha]; [lia|].
  replace fuel with (pred (length (Grid.points g)) + S (fuel - length (Grid.points g)))
    by lia.
  rewrite (walk_call_run g _ _ _ _ _ (chain_walk _ a Ha)), did_miss_points_S. cbv zeta.
  rewrite <-(chain_visited_S _ a Ha), (chain_guard _ a Ha).
  rewrite (chain_nearest_last _ a Ha) by lia. simpl negb. cbv iota.
  replace (S (pred (length (Grid.points g)))) with (length (Grid.points g)) by lia.
  rewrite firstn_all.
  destruct (Nat.ltb_spec 0 (size (list_to_set (Grid.points g) ∖ list_to_set (Grid.points g)
                                  : gset Point.t))) as [Hlt|_]; [|done].
  apply size_pos_elem_of in Hlt as [p [Hp Hp']%elem_of_difference]. done.
Qed.

End chain_valid.

(** X7. Given fuel for every marker, an accepted grid is valid exactly when
    its markers form a chain: of any two markers, one lies weakly to the right
    of and weakly above (at a row index no larger than) the other. Otherwise
    the check answers False. *)
Theorem is_possible_iff_chain (rows : list str) (g : Grid.t) (fuel : nat) :
  Grid.__init__ rows = Ok g → length (Grid.points g) ≤ fuel →
  (Grid.is_possible fuel g = Some (Ok true) ↔
   ∀ p q, p ∈ Grid.points g → q ∈ Grid.points g →
     (Point.x p ≤ Point.x q ∧ Point.y q ≤ Point.y p)%Z
     ∨ (Point.x q ≤ Point.x p ∧ Point.y p ≤ Point.y q)%Z)
  ∧ (Grid.is_possible fuel g = Some (Ok false) ↔
     ∃ p q, p ∈ Grid.points g ∧ q ∈ Grid.points g
            ∧ (Point.x p < Point.x q)%Z ∧ (Point.y p < Point.y q)%Z).
Proof.
  intros Hinit Hfuel.
  assert (Grid.is_possible fuel g = Some (Ok true) ↔
          ∀ p q, p ∈ Grid.points g → q ∈ Grid.points g → comparable p q) as Hiff.
  { split; [by apply (is_possible_chain rows)|].
    intros Hchain. unfold Grid.is_possible, Point.coords.
    by rewrite (chain_run rows g Hinit Hchain fuel Hfuel). }
  split; [exact Hiff|].
  destruct (is_possible_returns rows g Hinit fuel Hfuel) as [[|] Hb].
  - split; [by rewrite Hb|]. intros (p & q & Hp & Hq & Hx & Hy).
    destruct (proj1 Hiff Hb p q Hp Hq) as [[? ?]|[? ?]]; lia.
  - split; [intros _|done].
    destruct (decide (Forall (λ p, Forall (comparable p) (Grid.points g)) (Grid.points g)))
      as [Hall|Hnot].
    { assert (Grid.is_possible fuel g = Some (Ok true)); [|congruence].
      apply Hiff. intros p q Hp Hq. rewrite Forall_forall in Hall.
      specialize (Hall p Hp). rewrite Forall_forall in Hall. by apply Hall. }
    apply not_Forall_Exists in Hnot; [|by intros; apply _].
    apply Exists_exists in Hnot as (p & Hp & Hnot). simpl in Hnot.
    apply not_Forall_Exists in Hnot; [|by intros; apply _].
    apply Exists_exists in Hnot as (q & Hq & Hnot). simpl in Hnot.
    unfold comparable, reaches in Hnot.
    destruct (decide (Point.x p < Point.x q)%Z).
    + exists p, q. split_and!; [done..|]. lia.
    + exists q, p. split_and!; [done| |lia..]. done.
Qed.

Lemma is_possible_iff_chain_witness :
  ∃ g, Grid.__init__ skipped = Ok g
       ∧ ∃ p q, p ∈ Grid.points g ∧ q ∈ Grid.points g
                ∧ (Point.x p < Point.x q)%Z ∧ (Point.y p < Point.y q)%Z.
Proof.
  eexists. split; [reflexivity|].
  refine (proj1 (proj2 (is_possible_iff_chain skipped _ 3 eq_refl _)) _).
  - vm_compute. repeat constructor.
  - by vm_compute.
Defined.

(** X8. In a valid layout the walk visits the markers in the order of the
    marker list: its [k]-th call is at [points[k]], entered with exactly the
    markers before it visited, and it ends with every marker visited. *)
Theorem valid_walk_follows_the_list (rows : list str) (g : Grid.t) (fuel : nat) :
  Grid.__init__ rows = Ok g → Grid.is_possible fuel g = Some (Ok true) →
  (∀ k a, Grid.points g !! k = Some a →
     walk_call g k (list_to_set (take k (Grid.points g))) (Point.x a) (Point.y a)
     ∧ ∀ b, Grid.points g !! S k = Some b →
         Grid._get_nearest g (Point.x a) (Point.y a) = Some b)
  ∧ Grid._did_miss_points fuel g ∅ (Point.x (Grid.start g)) (Point.y (Grid.start g))
    = Some (list_to_set (Grid.points g), Ok false).
Proof.
  intros Hinit Hvalid.
  pose proof (is_possible_chain rows g Hinit fuel Hvalid) as Hchain. split.
  - intros k a Ha. split; [by apply (chain_walk rows)|].
    intros b Hb. by apply (chain_nearest_next rows g Hinit Hchain k).
  - apply is_possible_inv in Hvalid as [visited Hrun]. simpl in Hrun.
    pose proof (chain_run rows g Hinit Hchain (Nat.max fuel (length (Grid.points g))))
      as Hfull.
    rewrite (did_miss_points_mono _ _ _ _ _ _ _ Hrun) in Hfull by lia.
    rewrite Hrun. apply Hfull. lia.
Qed.

Lemma valid_walk_follows_the_list_witness :
  ∃ g, Grid.__init__ staircase = Ok g
       ∧ Grid._did_miss_points 3 g ∅ (Point.x (Grid.start g)) (Point.y (Grid.start g))
         = Some (list_to_set (Grid.points g), Ok false).
Proof.
  eexists. split; [reflexivity|].
  refine (proj2 (valid_walk_follows_the_list staircase _ 3 eq_refl _)).
  by vm_compute.
Defined.

(** ** The count of a valid layout *)

Lemma paths_count_loop_product (rows : list str) (g : Grid.t) (fuel0 fuel i : nat)
    (a : Point.t) (rest : list Point.t) (paths : Z) :
  Grid.__init__ rows = Ok g → Grid.is_possible fuel0 g = Some (Ok true) →
  length rows + row_width rows ≤ fuel →
  Grid.points g !! i = Some a → rest = drop (S i) (Grid.points g) →
  paths_count_loop fuel g i rest paths
  = Some (Ok (paths * Z.of_nat (consecutive_product (a :: rest)))%Z).
Proof.
  intros Hinit Hvalid Hfuel. revert i a paths.
  induction rest as [|b rest IH]; intros i a paths Ha Hrest; simpl.
  { do 2 f_equal. lia. }
  rewrite Ha.
  assert (Grid.points g !! S i = Some b) as Hb.
  { rewrite <-(Nat.add_0_r (S i)), <-lookup_drop, <-Hrest. done. }
  destruct (consecutive_subgrid rows g Hinit fuel0 Hvalid i a b Ha Hb)
    as (sub & -> & _ & Hs & He & Hdx & Hdy).
  destruct (paths_count_delannoy sub fuel) as (ps & -> & Hps).
  { rewrite Hs, He; simpl. lia. }
  { rewrite Hs, He; simpl. lia. }
  { rewrite Hs, He; simpl. lia. }
  simpl. rewrite (IH (S i) b); [|done|].
  - do 2 f_equal. rewrite Hps, Hs, He. simpl Point.x. simpl Point.y.
    rewrite !Z.sub_0_r. change (consecutive_product (b :: rest)) with
      (match rest with
       | [] => 1
       | c :: _ =>
           delannoy (Z.to_nat (Point.x c - Point.x b)) (Z.to_nat (Point.y b - Point.y c))
           * consecutive_product rest
       end).
    lia.
  - erewrite drop_S in Hrest by done. by injection Hrest.
Qed.

(** X9. The path count of a valid layout is the product, over the pairs of
    consecutive markers of the marker list, of the Delannoy numbers of the
    rectangles they span. *)
Theorem paths_count_is_product (rows : list str) (g : Grid.t) (fuel : nat) :
  Grid.__init__ rows = Ok g → Grid.is_possible fuel g = Some (Ok true) →
  length rows + row_width rows ≤ fuel →
  paths_count fuel g
  = Some (Ok (Some (Z.of_nat (consecutive_product (Grid.points g))))).
Proof.
  intros Hinit Hvalid Hfuel. unfold paths_count.
  pose proof (init_points_length rows g Hinit) as Hpos.
  destruct (Nat.leb_spec (length (Grid.points g)) 0) as [|_]; [lia|].
  destruct (Nat.eqb_spec (length (Grid.points g)) 1) as [Hone|_].
  { by destruct (Grid.points g) as [|? [|? ?]]. }
  rewrite Hvalid, slice_from_1.
  destruct (Grid.points g) as [|a rest] eqn:Hpts; [simpl in Hpos; lia|].
  rewrite <-Hpts.
  rewrite (paths_count_loop_product rows g fuel fuel 0 a (drop 1 (Grid.points g)) 1
             Hinit Hvalid Hfuel); [|by rewrite Hpts|done].
  rewrite Hpts at 1 2. simpl drop. rewrite drop_0. simpl mbind. simpl result_map.
  rewrite Z.mul_1_l. done.
Qed.

Lemma paths_count_is_product_witness :
  ∃ g, Grid.__init__ staircase = Ok g
       ∧ paths_count 6 g
         = Some (Ok (Some (Z.of_nat (consecutive_product (Grid.points g))))).
Proof.
  eexists. split; [reflexivity|].
  refine (paths_count_is_product staircase _ 6 eq_refl _ _).
  - by vm_compute.
  - vm_compute. repeat constructor.
Defined.

(** ** The paths share one list *)

Lemma deref_alloc_nil (h : list (list Point.t)) (i : nat) :
  Subgrid.deref (h ++ [[]]) i = Subgrid.deref h i.
Proof.
  cbv [Subgrid.deref Subgrid.heap Subgrid.loc].
  destruct (decide (i < length h)) as [Hi|Hi].
  - by rewrite lookup_app_l.
  - rewrite (lookup_ge_None_2 h i) by lia. rewrite lookup_app_r by lia.
    by destruct (i - length h) as [|[|?]].
Qed.

Lemma deref_nonempty_lt (h : list (list Point.t)) (i : nat) :
  Subgrid.deref h i ≠ [] → i < length h.
Proof.
  cbv [Subgrid.deref Subgrid.heap Subgrid.loc]. intros Hne.
  apply lookup_lt_is_Some. destruct (h !! i); [by eexists|done].
Qed.

Lemma deref_append_ne (h : list (list Point.t)) (l i : nat) (p : Point.t) :
  i ≠ l → Subgrid.deref (Subgrid.append h l p) i = Subgrid.deref h i.
Proof.
  intros Hne. cbv [Subgrid.deref Subgrid.append Subgrid.heap Subgrid.loc].
  by rewrite list_lookup_alter_ne.
Qed.

Lemma deref_append_eq (h : list (list Point.t)) (l : nat) (p : Point.t) :
  l < length h → Subgrid.deref (Subgrid.append h l p) l = Subgrid.deref h l ++ [p].
Proof.
  intros Hl. cbv [Subgrid.deref Subgrid.append Subgrid.heap Subgrid.loc].
  rewrite list_lookup_alter_eq.
  by destruct (lookup_lt_is_Some_2 h l Hl) as [v ->].
Qed.

Section alias.
Variable sg : Subgrid.t.

(** The list [_move] records into: the one it is given, or a new one when
    that is empty. Every path it returns is this list, and no list of the
    heap is emptied. *)
Lemma move_alias (fuel : nat) (x y : Z) (rp : Subgrid.loc) (h : Subgrid.heap) l h' :
  Subgrid._move fuel sg x y rp h = Some (l, h') →
  let rp' := if bool_decide (Subgrid.deref h rp = []) then length h else rp in
  (∀ a, a ∈ l → a = rp')
  ∧ (∀ i, Subgrid.deref h i ≠ [] → Subgrid.deref h' i ≠ [])
  ∧ Subgrid.deref h' rp' ≠ [].
Proof.
  revert x y rp h l h'. induction fuel as [|fuel IH]; intros x y rp h l h' Hrun; [done|].
  rewrite move_S in Hrun. cbv zeta.
  set (rp' := if bool_decide (Subgrid.deref h rp = []) then length h else rp).
  set (h0 := if bool_decide (Subgrid.deref h rp = []) then h ++ [[]] else h).
  assert ((if bool_decide (Subgrid.deref h rp = []) then Subgrid.alloc h []
           else (rp, h)) = (rp', h0)) as Hpair.
  { subst rp' h0. by case_bool_decide. }
  rewrite Hpair in Hrun. clear Hpair. cbv zeta in Hrun.
  assert (rp' < length h0 ∧ ∀ i, Subgrid.deref h0 i = Subgrid.deref h i) as [Hlt Hsame].
  { subst rp' h0. case_bool_decide as Hnil.
    - split; [rewrite length_app; simpl; lia|apply deref_alloc_nil].
    - split; [|done]. by apply deref_nonempty_lt. }
  set (h1 := Subgrid.append h0 rp' (Point.mk x y)) in Hrun.
  assert (Subgrid.deref h1 rp' ≠ []) as Hrp1.
  { subst h1. rewrite deref_append_eq by done. by destruct (Subgrid.deref h0 rp'). }
  assert (∀ i, Subgrid.deref h i ≠ [] → Subgrid.deref h1 i ≠ []) as Hkeep1.
  { intros i Hi. destruct (decide (i = rp')) as [->|Hne]; [done|].
    subst h1. by rewrite deref_append_ne, Hsame. }
  clearbody h1 rp'. clear h0 Hlt Hsame.
  assert (∀ (c : bool) x' y' hk r,
            Subgrid.deref hk rp' ≠ [] →
            (if c then Subgrid._move fuel sg x' y' rp' hk else Some ([], hk)) = Some r →
            (∀ a, a ∈ r.1 → a = rp')
            ∧ (∀ i, Subgrid.deref hk i ≠ [] → Subgrid.deref r.2 i ≠ [])) as Hstep.
  { intros [|] x' y' hk [r1 r2] Hk Hr; simpl.
    - apply IH in Hr. cbv zeta in Hr. rewrite bool_decide_eq_false_2 in Hr by done.
      destruct Hr as (? & ? & _). done.
    - injection Hr as <- <-. split; [by intros ? ?%elem_of_nil|done]. }
  destruct (if (x <? _)%Z then _ else _) as [[p1 h2]|] eqn:E1; [|done].
  destruct (Hstep _ _ _ _ _ Hrp1 E1) as [Hp1 Hk2]. simpl in Hrun, Hp1, Hk2.
  destruct (if (y >? _)%Z then _ else _) as [[p2 h3]|] eqn:E2; [|done].
  destruct (Hstep _ _ _ _ _ (Hk2 _ Hrp1) E2) as [Hp2 Hk3]. simpl in Hrun, Hp2, Hk3.
  destruct (if (_ && _) then _ else _) as [[p3 h4]|] eqn:E3; [|done].
  destruct (Hstep _ _ _ _ _ (Hk3 _ (Hk2 _ Hrp1)) E3) as [Hp3 Hk4].
  simpl in Hrun, Hp3, Hk4.
  assert (h' = h4 ∧ (l = [rp'] ∨ l = p1 ++ p2 ++ p3)) as [-> Hl].
  { destruct (_ && _ && _); injection Hrun as <- <-; auto. }
  split_and!.
  - intros a Ha. destruct Hl as [->| ->].
    + by apply list_elem_of_singleton in Ha.
    + apply elem_of_app in Ha as [?|[?|?]%elem_of_app]; auto.
  - intros i Hi. by apply Hk4, Hk3, Hk2, Hkeep1.
  - by apply Hk4, Hk3, Hk2.
Qed.

End alias.

(** X10. Every entry of [paths] is the same list object, the one all calls
    of [_move] record into: the entries are all equal, and the list never
    holds two different paths. *)
Theorem paths_are_one_list (sg : Subgrid.t) (fuel : nat) (ps : list (list Point.t)) :
  Subgrid.paths fuel sg = Some ps →
  ∃ recorded, recorded ≠ [] ∧ ps = replicate (length ps) recorded.
Proof.
  unfold Subgrid.paths. simpl.
  destruct (Subgrid._move fuel sg _ _ 0 [[]]) as [[l h']|] eqn:Hrun; [|done].
  intros [= <-]. apply move_alias in Hrun as (Hall & _ & Hne). simpl in Hall, Hne.
  exists (Subgrid.deref h' 1). split; [done|].
  rewrite length_fmap. clear Hne. induction l as [|a l IH]; [done|]. simpl.
  rewrite (Hall a) by left. f_equal. apply IH. intros; apply Hall. by right.
Qed.

Lemma paths_are_one_list_witness :
  ∃ ps recorded, Subgrid.paths 3 unit_square_subgrid = Some ps
                 ∧ recorded ≠ [] ∧ ps = replicate (length ps) recorded.
Proof.
  eexists. 
  destruct (paths_are_one_list unit_square_subgrid 3 _ eq_refl) as (recorded & Hne & Hps).
  exists recorded. split; [reflexivity|]. exact (conj Hne Hps).
Defined.

(** ** Subgrids with any corners *)

(** [move_count] without its assumption on the position: a coordinate past
    the end marker allows no move along its axis. *)
Lemma move_count_any (sg : Subgrid.t) (fuel : nat) (x y : Z) (recording_path : Subgrid.loc)
    (h : Subgrid.heap) :
  Z.to_nat (Point.x (Grid.end_ sg) - x) + Z.to_nat (y - Point.y (Grid.end_ sg)) < fuel →
  ∃ l h', Subgrid._move fuel sg x y recording_path h = Some (l, h')
          ∧ length l = delannoy (Z.to_nat (Point.x (Grid.end_ sg) - x))
                                (Z.to_nat (y - Point.y (Grid.end_ sg))).
Proof.
  set (ex := Point.x (Grid.end_ sg)). set (ey := Point.y (Grid.end_ sg)).
  revert x y recording_path h.
  induction fuel as [|fuel IH]; intros x y rp h Hfuel; [lia|].
  rewrite move_S. fold ex ey.
  destruct (if bool_decide (Subgrid.deref h rp = []) then Subgrid.alloc h [] else (rp, h))
    as [rp' h0].
  cbv zeta. generalize (Subgrid.append h0 rp' (Point.mk x y)). clear h h0. intros h.
  rewrite !Z.gtb_ltb.
  destruct (Z.ltb_spec x ex) as [Hx'|Hx'], (Z.ltb_spec ey y) as [Hy'|Hy']; simpl andb; cbv iota.
  - destruct (IH (x + 1)%Z y rp' h) as (l1 & h1 & -> & Hl1); [lia|]. simpl.
    destruct (IH x (y - 1)%Z rp' h1) as (l2 & h2 & -> & Hl2); [lia|]. simpl.
    destruct (IH (x + 1)%Z (y - 1)%Z rp' h2) as (l3 & h3 & -> & Hl3); [lia|]. simpl.
    pose proof (delannoy_pos (Z.to_nat (ex - (x + 1))) (Z.to_nat (y - 1 - ey))) as Hpos.
    rewrite (bool_decide_eq_false_2 (l3 = [])), !andb_false_r
      by (intros ->; simpl in Hl3; lia).
    eexists _, _. split; [done|]. rewrite !length_app, Hl1, Hl2, Hl3.
    replace (Z.to_nat (ex - x)) with (S (Z.to_nat (ex - (x + 1)))) by lia.
    replace (Z.to_nat (y - ey)) with (S (Z.to_nat (y - 1 - ey))) by lia.
    rewrite delannoy_rec.
    replace (Z.to_nat (y - ey)) with (S (Z.to_nat (y - 1 - ey))) by lia.
    replace (Z.to_nat (ex - x)) with (S (Z.to_nat (ex - (x + 1)))) by lia.
    lia.
  - destruct (IH (x + 1)%Z y rp' h) as (l1 & h1 & -> & Hl1); [lia|]. simpl.
    pose proof (delannoy_pos (Z.to_nat (ex - (x + 1))) (Z.to_nat (y - ey))) as Hpos.
    destruct (Subgrid.paths_eqb h1 l1 []) eqn:Heq.
    { apply paths_eqb_length in Heq. simpl in Heq. lia. }
    simpl. eexists _, _. split; [done|]. rewrite !app_nil_r, Hl1.
    replace (Z.to_nat (y - ey)) with 0 by lia. by rewrite !delannoy_0_r.
  - simpl.
    destruct (IH x (y - 1)%Z rp' h) as (l2 & h2 & -> & Hl2); [lia|]. simpl.
    pose proof (delannoy_pos (Z.to_nat (ex - x)) (Z.to_nat (y - 1 - ey))) as Hpos.
    destruct (Subgrid.paths_eqb h2 [] l2) eqn:Heq.
    { apply paths_eqb_length in Heq. simpl in Heq. lia. }
    simpl. eexists _, _. split; [done|]. rewrite !app_nil_r, Hl2.
    replace (Z.to_nat (ex - x)) with 0 by lia. by rewrite !delannoy_0_l.
  - simpl. eexists _, _. split; [done|]. simpl.
    replace (Z.to_nat (ex - x)) with 0 by lia. by rewrite delannoy_0_l.
Qed.

(** X11. [paths] returns for every subgrid, whatever the position of its end
    marker: a negative span counts as 0, so a subgrid whose end marker lies to
    the left of its start marker has exactly one path, straight up. *)
Theorem paths_with_any_corners (sg : Subgrid.t) (fuel : nat) :
  let dx := (Point.x (Grid.end_ sg) - Point.x (Grid.start sg))%Z in
  let dy := (Point.y (Grid.start sg) - Point.y (Grid.end_ sg))%Z in
  Z.to_nat dx + Z.to_nat dy < fuel →
  ∃ ps, Subgrid.paths fuel sg = Some ps
        ∧ length ps = delannoy (Z.to_nat dx) (Z.to_nat dy)
        ∧ ((dx ≤ 0)%Z → length ps = 1).
Proof.
  intros dx dy Hfuel. unfold Subgrid.paths. simpl.
  destruct (move_count_any sg fuel (Point.x (Grid.start sg)) (Point.y (Grid.start sg))
                           0 [[]]) as (l & h' & -> & Hl); [done|].
  eexists. split; [done|]. rewrite length_fmap. split; [done|].
  intros Hneg. rewrite Hl. fold dx. replace (Z.to_nat dx) with 0 by lia.
  apply delannoy_0_l.
Qed.

Lemma paths_with_any_corners_witness :
  ∃ sg ps, Subgrid.__init__ (py_str <$> ["X."; ".X"]%string) = Ok sg
           ∧ Subgrid.paths 2 sg = Some ps ∧ length ps = 1.
Proof.
  exists {| Grid.grid := py_str <$> ["X."; ".X"]%string;
            Grid.cols := py_str <$> ["X."; ".X"]%string;
            Grid.rows := py_str <$> ["X."; ".X"]%string;
            Grid.points := [Point.mk 1 1; Point.mk 0 0];
            Grid._start := Point.mk 1 1;
            Grid._end := Point.mk 0 0 |}.
  match goal with
  | |- ∃ ps, _ ∧ Subgrid.paths 2 ?sg = _ ∧ _ =>
      destruct (paths_with_any_corners sg 2) as (ps & Hps & _ & Hone)
  end.
  - vm_compute. constructor.
  - exists ps. split; [by vm_compute|]. split; [exact Hps|].
    apply Hone. by vm_compute.
Defined.

(** The rows of a carved grid are slices of rows of the grid, at row indices
    between the two corners. *)
Lemma carve_elem (grid : list str) (a b : Point.t) (r : str) :
  r ∈ Subgrid.carve grid a b →
  ∃ y : nat, (Point.y b ≤ Z.of_nat y ≤ Point.y a)%Z ∧ y < length grid
             ∧ r = slice (default [] (grid !! y)) (Some (Point.x a))
                         (Some (Point.x b + 1)%Z).
Proof.
  unfold Subgrid.carve. intros (y & Hy%elem_of_seq & Hr)%list_elem_of_omap.
  exists y. destruct (Z.leb_spec (Z.of_nat y) (Point.y a)); [|done].
  destruct (Z.geb_spec (Z.of_nat y) (Point.y b)); [|done].
  simpl in Hr. injection Hr as <-. split_and!; [lia..|done].
Qed.

Lemma slice_reversed {A} (l : list A) (lo hi : Z) :
  (0 ≤ lo)%Z → (0 ≤ hi ≤ lo)%Z → slice l (Some lo) (Some hi) = [].
Proof.
  intros Hlo Hhi. unfold slice, clamp; simpl.
  destruct (Z.ltb_spec lo 0); [lia|]. destruct (Z.ltb_spec hi 0); [lia|].
  replace (_ - _) with 0 by lia. apply take_0.
Qed.

(** X12. [from_points] builds a subgrid only between ordered corners: the end
    corner is not below the start corner and, for column indices that are not
    negative, not to its left. The subgrid it builds holds exactly two
    markers. *)
Theorem from_points_ordered_corners (grid : list str) (a b : Point.t) (sub : Subgrid.t) :
  Subgrid.from_points grid a b = Ok sub →
  (Point.y b ≤ Point.y a)%Z
  ∧ ((0 ≤ Point.x a)%Z → (0 ≤ Point.x b)%Z → (Point.x a ≤ Point.x b)%Z)
  ∧ Grid.grid sub = Subgrid.carve grid a b
  ∧ length (Grid.points sub) = 2.
Proof.
  unfold Subgrid.from_points, Subgrid.__init__.
  destruct (Grid.__init__ (Subgrid.carve grid a b)) as [g|] eqn:Hinit; [|done].
  destruct (Nat.eqb_spec (length (Grid.points g)) 2) as [Hlen|]; [|done].
  intros [= <-].
  destruct (init_inv _ _ Hinit) as (Hne & Hw & Hgrid & _).
  destruct (Subgrid.carve grid a b) as [|r0 rest] eqn:Hcarve; [done|].
  assert (r0 ∈ Subgrid.carve grid a b) as Hr0 by (rewrite Hcarve; left).
  apply carve_elem in Hr0 as (y & Hy & _ & Hr0).
  split; [lia|]. split; [|done].
  intros Hxa Hxb. destruct (decide (Point.x a ≤ Point.x b)%Z) as [|Hlt]; [done|].
  exfalso. rewrite slice_reversed in Hr0 by lia.
  pose proof (init_start_elem _ _ Hinit) as Hstart.
  apply (init_points_elem _ _ Hinit) in Hstart as (x' & _ & _ & Hx' & _).
  rewrite Hr0 in Hx'. unfold row_width in Hx'. simpl in Hx'. lia.
Qed.

Lemma from_points_ordered_corners_witness :
  ∃ sub, Subgrid.from_points staircase (Point.mk 0 2) (Point.mk 1 1) = Ok sub
         ∧ length (Grid.points sub) = 2.
Proof.
  exists unit_square_subgrid.
  assert (Subgrid.from_points staircase (Point.mk 0 2) (Point.mk 1 1)
          = Ok unit_square_subgrid) as Hsub by (vm_compute; reflexivity).
  split; [exact Hsub|].
  exact (proj2 (proj2 (proj2 (from_points_ordered_corners _ _ _ _ Hsub)))).
Defined.

(** ** What main raises *)

(** X13. [main] raises an exception exactly when the constructor raises it:
    neither the validity check nor the count adds a failure of its own. *)
Theorem main_raises_iff (rows : list str) (e : exn) :
  (∃ fuel, main fuel rows = Some (Raise e)) ↔ Grid.__init__ rows = Raise e.
Proof.
  unfold main. split.
  - intros [fuel Hmain]. destruct (Grid.__init__ rows) as [g|e'] eqn:Hinit; [|congruence].
    exfalso.
    destruct (Grid.is_possible fuel g) as [[[|]|e']|] eqn:Hvalid; [|done| |done].
    + unfold paths_count in Hmain.
      destruct (length (Grid.points g) <=? 0); [done|].
      destruct (length (Grid.points g) =? 1); [done|].
      rewrite Hvalid, slice_from_1 in Hmain.
      destruct (paths_count_loop fuel g 0 (drop 1 (Grid.points g)) 1) as [[m|e']|] eqn:E;
        simpl in Hmain; [done| |done].
      destruct (paths_count_loop_no_raise rows g Hinit fuel Hvalid fuel 0
                  (drop 1 (Grid.points g)) 1%Z e'); [done| |done].
      pose proof (init_points_length rows g Hinit). lia.
    + unfold Grid.is_possible, Point.coords in Hvalid.
      destruct (Grid._did_miss_points fuel g _ _ _) as [[v [b|e'']]|] eqn:Hrun;
        simplify_eq/=.
      match type of Hrun with
      | _ = Some (_, Raise ?e0) =>
          by destruct (walk_call_no_raise rows g Hinit fuel 0 ∅ _ _ v e0 (walk_first g))
      end.
  - intros ->. by exists 0.
Qed.

(** ** Reading a grid from a stream *)

Lemma split_length (sep : ascii) (s : str) :
  length (split sep s) = S (count_char sep s).
Proof.
  unfold count_char. induction s as [|c s IH]; simpl; [done|].
  case_bool_decide; simpl; [by rewrite IH|].
  destruct (split sep s) as [|piece pieces]; simpl in *; lia.
Qed.

Lemma lstrip_length (s : str) : length (lstrip s) ≤ length s.
Proof.
  induction s as [|c s IH]; simpl; [done|]. destruct (is_space c); simpl; lia.
Qed.

Lemma lstrip_same_length (s : str) : length (lstrip s) = length s → lstrip s = s.
Proof.
  destruct s as [|c s]; simpl; [done|]. destruct (is_space c); [|done].
  pose proof (lstrip_length s). lia.
Qed.

Lemma lstrip_fixed_head (c : ascii) (s : str) :
  lstrip (c :: s) = c :: s → is_space c = false.
Proof.
  simpl. destruct (is_space c); [|done]. intros Heq.
  pose proof (lstrip_length s) as Hlen. rewrite Heq in Hlen. simpl in Hlen. lia.
Qed.

(** A string that [strip] leaves alone has no white space at either end. *)
Lemma strip_fixed (r : str) :
  strip r = r → lstrip r = r ∧ lstrip (reverse r) = reverse r.
Proof.
  unfold strip, rstrip. intros Heq.
  assert (lstrip r = r) as Hl.
  { apply lstrip_same_length. apply (f_equal length) in Heq.
    rewrite length_reverse in Heq.
    pose proof (lstrip_length (reverse (lstrip r))) as H1.
    rewrite length_reverse in H1. pose proof (lstrip_length r). lia. }
  split; [done|]. rewrite Hl in Heq.
  apply (f_equal reverse) in Heq. by rewrite reverse_involutive in Heq.
Qed.

Lemma strip_with_newline (r : str) : strip r = r → strip (with_newline r) = r.
Proof.
  intros [Hl Hr]%strip_fixed. unfold strip, rstrip, with_newline.
  destruct r as [|c r]; [done|].
  apply lstrip_fixed_head in Hl. simpl lstrip at 2. rewrite Hl.
  change (c :: r ++ ["010"%char]) with ((c :: r) ++ ["010"%char]).
  rewrite reverse_snoc. simpl lstrip. change (is_space "010") with true. cbv iota.
  by rewrite Hr, reverse_involutive.
Qed.

Lemma init_unequal_rows (rows : list str) (r : str) :
  r ∈ rows → length r ≠ row_width rows → Grid.__init__ rows = Raise AssertionError.
Proof.
  intros Hr Hlen. unfold Grid.__init__.
  destruct rows as [|r0 rest] eqn:Hrows; [by apply elem_of_nil in Hr|].
  rewrite <-Hrows in *.
  match goal with
  | |- context [negb ?c] => assert (c = false) as ->; [|done]
  end.
  apply not_true_is_false. intros Hall. rewrite forallb_forall in Hall.
  apply Hlen. assert (row_width rows = length r0) as -> by by rewrite Hrows.
  apply Nat.eqb_eq, Hall. by apply list_elem_of_In.
Qed.

(** X14. [from_stream] fails with ValueError exactly when the first line of
    the stream does not hold exactly one comma (an empty stream has the empty
    first line); the lines after it play no part in that. *)
Theorem from_stream_ValueError_iff (stream : list str) :
  from_stream stream = ValueError ↔ count_char ","%char (hd [] stream) ≠ 1.
Proof.
  unfold from_stream.
  assert (readline stream = (hd [] stream, tl stream)) as -> by by destruct stream.
  pose proof (split_length ","%char (hd [] stream)) as Hlen.
  destruct (split ","%char (hd [] stream)) as [|w [|h [|? ?]]]; simpl in Hlen;
    split; try done; lia.
Qed.

(** X15. Writing the rows of a grid one per line under a header line with one
    comma, and reading them back with [from_stream], gives what the
    constructor gives on the rows, provided no row begins or ends with white
    space; the two numbers of the header are not looked at. [main] on that
    stream does what it does on the rows. *)
Theorem from_stream_round_trip (header : str) (rows : list str) :
  count_char ","%char header = 1 →
  Forall (λ r, strip r = r) rows →
  from_stream (header :: (with_newline <$> rows)) = Constructed (Grid.__init__ rows)
  ∧ ∀ fuel, main_stdin fuel (header :: (with_newline <$> rows))
            = match main fuel rows with
              | None => None
              | Some (Raise e) => Some (Uncaught e)
              | Some (Ok (out, code)) => Some (Exit out code)
              end.
Proof.
  intros Hcomma Hrows.
  assert (from_stream (header :: (with_newline <$> rows))
          = Constructed (Grid.__init__ rows)) as Hparse.
  { unfold from_stream. simpl readline. cbv iota.
    pose proof (split_length ","%char header) as Hlen. rewrite Hcomma in Hlen.
    destruct (split ","%char header) as [|w [|h [|? ?]]]; simpl in Hlen; try lia.
    do 2 f_equal. induction Hrows as [|r rows Hr _ IH]; [done|].
    rewrite !fmap_cons, (strip_with_newline r Hr). f_equal. exact IH. }
  split; [done|]. intros fuel. unfold main_stdin, from_stdin, main. rewrite Hparse.
  destruct (Grid.__init__ rows) as [g|e]; [|done].
  destruct (Grid.is_possible fuel g) as [[[|]|e]|]; [|done..].
  by destruct (paths_count fuel g) as [[v|e]|].
Qed.

Lemma from_stream_round_trip_witness :
  from_stream (py_str "3,3" :: (with_newline <$> staircase))
  = Constructed (Grid.__init__ staircase).
Proof.
  refine (proj1 (from_stream_round_trip (py_str "3,3") staircase _ _)).
  - by vm_compute.
  - repeat constructor.
Defined.

(** X16. A line of white space only among lines that are not (a blank line
    at the end of the input, say) becomes an empty row, and the constructor
    fails its assertion on the row lengths. *)
Theorem from_stream_blank_line (header : str) (rest : list str) (blank line : str) :
  count_char ","%char header = 1 →
  blank ∈ rest → strip blank = [] →
  line ∈ rest → strip line ≠ [] →
  from_stream (header :: rest) = Constructed (Raise AssertionError).
Proof.
  intros Hcomma Hblank Hb Hline Hl. unfold from_stream. simpl readline. cbv iota.
  pose proof (split_length ","%char header) as Hlen. rewrite Hcomma in Hlen.
  destruct (split ","%char header) as [|w [|h [|? ?]]]; simpl in Hlen; try lia.
  f_equal.
  assert (strip blank ∈ strip <$> rest) as Hin1 by by apply list_elem_of_fmap_2.
  assert (strip line ∈ strip <$> rest) as Hin2 by by apply list_elem_of_fmap_2.
  destruct (decide (row_width (strip <$> rest) = 0)) as [Hzero|Hpos].
  - apply (init_unequal_rows _ (strip line)); [done|]. rewrite Hzero.
    by destruct (strip line).
  - apply (init_unequal_rows _ (strip blank)); [done|]. by rewrite Hb.
Qed.

Lemma from_stream_blank_line_witness :
  from_stream (py_str "3,3" :: (with_newline <$> staircase) ++ [with_newline []])
  = Constructed (Raise AssertionError).
Proof.
  refine (from_stream_blank_line (py_str "3,3") _ (with_newline [])
            (with_newline (py_str "..X")) _ _ _ _ _).
  - by vm_compute.
  - apply list_elem_of_In. vm_compute. tauto.
  - by vm_compute.
  - apply list_elem_of_In. vm_compute. tauto.
  - by vm_compute.
Defined.
